(** * quincy: middleware chaining for request handlers

    A shallow embedding of [quincy.go] and the properties of its
    composition algorithm ([link] / [chain]) and of its execution modes
    ([Run], [Then], [Handle]).

    Go code acts on an ambient world (the response writer, the request,
    anything the middleware touches) and may panic.  Both are explicit
    here: a computation is a function from the world before to an
    [outcome], which is either a normal return with the world after, or a
    panic with the world as it was when the panic was raised. *)

From Stdlib Require Import String List Arith Lia.
Import ListNotations.

Set Implicit Arguments.
Set Warnings "-notation-for-abbreviation".

(** ** Go runtime: outcomes, panics and sequencing *)

Inductive panic : Type :=
| nil_dereference           (* invalid memory address or nil pointer dereference *)
| raised (msg : string).    (* a panic raised by user code or by a collaborator *)

Inductive outcome (State A : Type) : Type :=
| Ret (a : A) (s : State)
| Panic (p : panic) (s : State).

Arguments Ret {State A} a s.
Arguments Panic {State A} p s.

Definition M (State A : Type) : Type := State -> outcome State A.

Definition ret {State A : Type} (a : A) : M State A :=
  fun s => Ret a s.

Definition throw {State A : Type} (p : panic) : M State A :=
  fun s => Panic p s.

Definition bind {State A B : Type} (m : M State A) (k : A -> M State B) : M State B :=
  fun s =>
    match m s with
    | Ret a s' => k a s'
    | Panic p s' => Panic p s'
    end.

Declare Scope go_scope.
Delimit Scope go_scope with go.
Notation "x <- m ;; k" := (bind m (fun x => k))
  (at level 100, m at next level, right associativity) : go_scope.
Open Scope go_scope.

(** The world in which an outcome ends. *)
Definition final {State A : Type} (o : outcome State A) : State :=
  match o with
  | Ret _ s => s
  | Panic _ s => s
  end.

(** ** The host environment

    What the package consumes from outside: the [Err] method of the values
    behind [context.Context], and [appengine.NewContext].

    [ctx_err cv s] is [Err()] of a non-nil Context in world [s]; [None] is
    the nil error.  It is an observation: it may depend on the world (a
    Context can be cancelled), it does not change it. *)

Class Host (State CtxV Error Request : Type) : Type :=
  { ctx_err : CtxV -> State -> option Error;
    new_context : Request -> M State (option CtxV) }.

(** ** The package *)

Section Quincy.

(** The world, and the host's opaque types: the dynamic value behind a
    non-nil [context.Context], the [error] values, [http.ResponseWriter]
    and [*http.Request]. *)
Variables State CtxV Error Sink Request : Type.

Context {host : Host State CtxV Error Request}.

(** [context.Context] is an interface: a value of it is nil ([None]) or
    holds a dynamic value. *)
Definition Context : Type := option CtxV.

(** [c.Err()]: a method call through a nil interface panics. *)
Definition Err (c : Context) : M State (option Error) :=
  match c with
  | None => throw nil_dereference
  | Some cv => fun s => Ret (ctx_err cv s) s
  end.

(** [appengine.NewContext(r)] *)
Definition NewContext (r : Request) : M State Context := new_context r.

(** [type Middleware func(context.Context, http.ResponseWriter,
    *http.Request) context.Context].  A func value is nil or a closure. *)
Definition Middleware : Type :=
  option (Context -> Sink -> Request -> M State Context).

(** [type HandlerFunc func(context.Context, http.ResponseWriter, *http.Request)] *)
Definition HandlerFunc : Type :=
  option (Context -> Sink -> Request -> M State unit).

(** [type Handler interface { ServeHTTP(context.Context,
    http.ResponseWriter, *http.Request) }]: nil, or an object with the
    method. *)
Record Handler_object : Type :=
  { ServeHTTP : Context -> Sink -> Request -> M State unit }.

Definition Handler : Type := option Handler_object.

(** Calling a func value, and a method of an interface value: nil panics. *)
Definition call (f : Middleware) (c : Context) (w : Sink) (r : Request)
  : M State Context :=
  match f with
  | None => throw nil_dereference
  | Some g => g c w r
  end.

Definition call_fn (f : HandlerFunc) (c : Context) (w : Sink) (r : Request)
  : M State unit :=
  match f with
  | None => throw nil_dereference
  | Some g => g c w r
  end.

Definition serve (h : Handler) (c : Context) (w : Sink) (r : Request)
  : M State unit :=
  match h with
  | None => throw nil_dereference
  | Some o => ServeHTTP o c w r
  end.

(** [func link(current, next Middleware) Middleware] *)
Definition link (current next : Middleware) : Middleware :=
  Some (fun c w r =>
    c <- call current c w r ;;
    e <- Err c ;;
    match e with
    | Some _ => ret c
    | None =>
        c <- match next with
             | Some _ => call next c w r
             | None => ret c
             end ;;
        ret c
    end).

(** [func chain(fns []Middleware) Middleware].  [chain_loop fns i next] is
    the state of the loop [for i := count - 1; i >= 0; i--] when [i]
    iterations remain; the next iteration reads [fns[i-1]]. *)
Fixpoint chain_loop (fns : list Middleware) (i : nat) (next : Middleware)
  : Middleware :=
  match i with
  | O => next
  | S j => chain_loop fns j (link (nth j fns None) next)
  end.

Definition chain (fns : list Middleware) : Middleware :=
  let count := length fns in
  let next := chain_loop fns count None in
  if Nat.eqb count 0
  then Some (fun c _ _ => ret c)
  else next.

(** [type Q struct { fns []Middleware }], as [Run], [Then] and [Handle] read
    it at a call: the elements [q.fns[0]], ..., [q.fns[len-1]].  These
    methods read the chain and do not write it.  [New fs] is the chain that
    holds the steps [fs].  Where the slice lives, who else can reach its
    backing array, and [Add], which writes it, are in [Mem] below. *)
Record Q : Type := { fns : list Middleware }.

Definition New (fs : list Middleware) : Q := {| fns := fs |}.

(** [func (q *Q) Run(c, w, r)]: the Context the chain returns is dropped. *)
Definition Run (q : Q) (c : Context) (w : Sink) (r : Request) : M State unit :=
  _ <- call (chain (fns q)) c w r ;;
  ret tt.

(** [func (q *Q) Then(fn HandlerFunc) func(http.ResponseWriter, *http.Request)] *)
Definition Then (q : Q) (fn : HandlerFunc) : Sink -> Request -> M State unit :=
  let chn := chain (fns q) in
  fun w r =>
    c <- NewContext r ;;
    c <- call chn c w r ;;
    e <- Err c ;;
    match e with
    | None => call_fn fn c w r
    | Some _ => ret tt
    end.

(** [type handler struct { mw Middleware; handler Handler }] *)
Record handler : Type := { mw : Middleware; h_handler : Handler }.

(** [func (h handler) ServeHTTP(w, r)] *)
Definition handler_ServeHTTP (h : handler) (w : Sink) (r : Request)
  : M State unit :=
  c <- NewContext r ;;
  c <- call (mw h) c w r ;;
  e <- Err c ;;
  match e with
  | None => serve (h_handler h) c w r
  | Some _ => ret tt
  end.

(** [func (q *Q) Handle(h Handler) http.Handler] *)
Definition Handle (q : Q) (h : Handler) : handler :=
  let mw := chain (fns q) in
  {| mw := mw; h_handler := h |}.


(** *** The composition algorithm in the words of the specification

    The composed function for position [i] invokes step [i] and, if the
    resulting Context carries no failure, invokes the composed function for
    position [i+1]; if it carries a failure it returns at once.  On the
    empty sequence it is the identity. *)
Fixpoint composed (fns : list Middleware) (c : Context) (w : Sink) (r : Request)
  : M State Context :=
  match fns with
  | [] => ret c
  | f :: rest =>
      c1 <- call f c w r ;;
      e <- Err c1 ;;
      match e with
      | Some _ => ret c1
      | None => composed rest c1 w r
      end
  end.

(** [pass_all fns c w r s]: run the steps of [fns] in order from Context [c]
    and world [s], each on the Context the one before it returned; the
    result is the last Context and world when every step is a non-nil
    function that returns a non-nil Context carrying no failure, and [None]
    otherwise. *)
Fixpoint pass_all (fns : list Middleware) (c : Context) (w : Sink) (r : Request)
  (s : State) : option (Context * State) :=
  match fns with
  | [] => Some (c, s)
  | None :: _ => None
  | Some m :: rest =>
      match m c w r s with
      | Ret (Some cv) s1 =>
          match ctx_err cv s1 with
          | None => pass_all rest (Some cv) w r s1
          | Some _ => None
          end
      | _ => None
      end
  end.

(** A step that, whatever it is given, returns a non-nil Context. *)
Definition returns_non_nil (w : Sink) (r : Request) (f : Middleware) : Prop :=
  exists m, f = Some m /\
    forall c s, exists cv s', m c w r s = Ret (Some cv) s'.

(** Invoking a terminal function directly on the freshly derived Context. *)
Definition direct (fn : HandlerFunc) (w : Sink) (r : Request) : M State unit :=
  c <- NewContext r ;;
  call_fn fn c w r.

Definition direct_serve (h : Handler) (w : Sink) (r : Request) : M State unit :=
  c <- NewContext r ;;
  serve h c w r.

(** A [func(http.ResponseWriter, *http.Request)] used where a [HandlerFunc]
    is expected: the Context argument has nowhere to go. *)
Definition as_HandlerFunc (h : Sink -> Request -> M State unit) : HandlerFunc :=
  Some (fun _ w r => h w r).

(** The steps [fs] followed by the terminal [fn], run on the Context that
    is handed in: what the closure of [Then] does once it has its Context. *)
Definition run_then (fs : list Middleware) (fn : HandlerFunc) : HandlerFunc :=
  Some (fun c w r =>
    c <- call (chain fs) c w r ;;
    e <- Err c ;;
    match e with
    | None => call_fn fn c w r
    | Some _ => ret tt
    end).

End Quincy.

Arguments link {State CtxV Error Sink Request host} current next.
Arguments as_HandlerFunc {State CtxV Sink Request} h.

(** ** Observing invocations

    To say which steps a composed chain invokes, each step is wrapped in a
    spy that records its position before running it, as a test double
    would.  The world of an observed run is the world [U] of the steps
    themselves together with the record of invocations, which the steps
    cannot reach. *)

Inductive event : Type :=
| EvStep (position : nat)     (* the middleware at this position was invoked *)
| EvTerminal.                 (* the terminal unit was invoked *)

Record observed (U : Type) : Type := { trace : list event; world : U }.

Arguments trace {U} _.
Arguments world {U} _.

Section Observation.

Variables U CtxV Error Sink Request : Type.

(** A computation on [U], run in the observed world: the record of
    invocations is carried along unchanged. *)
Definition lift {A : Type} (m : M U A) : M (observed U) A :=
  fun s =>
    match m (world s) with
    | Ret a u => Ret a {| trace := trace s; world := u |}
    | Panic p u => Panic p {| trace := trace s; world := u |}
    end.

(** Record [e], then run [m]. *)
Definition spy {A : Type} (e : event) (m : M (observed U) A) : M (observed U) A :=
  fun s => m {| trace := trace s ++ [e]; world := world s |}.

(** The host of an observed run: [Err()] and [NewContext] act on the world
    of the steps and cannot see the record. *)
#[export] Instance observed_host {h : Host U CtxV Error Request}
  : Host (observed U) CtxV Error Request :=
  {| ctx_err := fun cv s => ctx_err cv (world s);
     new_context := fun r => lift (new_context r) |}.

(** The middleware [f], reporting that position [i] was invoked.  A nil
    function stays nil. *)
Definition watch (i : nat) (f : Middleware U CtxV Sink Request)
  : Middleware (observed U) CtxV Sink Request :=
  match f with
  | None => None
  | Some g => Some (fun c w r => spy (EvStep i) (lift (g c w r)))
  end.

(** The sequence [fs], its steps reporting positions [i], [i+1], ... *)
Fixpoint watch_from (i : nat) (fs : list (Middleware U CtxV Sink Request))
  : list (Middleware (observed U) CtxV Sink Request) :=
  match fs with
  | [] => []
  | f :: rest => watch i f :: watch_from (S i) rest
  end.

Definition watch_fn (fn : HandlerFunc U CtxV Sink Request)
  : HandlerFunc (observed U) CtxV Sink Request :=
  match fn with
  | None => None
  | Some g => Some (fun c w r => spy EvTerminal (lift (g c w r)))
  end.

Definition watch_handler (h : Handler U CtxV Sink Request)
  : Handler (observed U) CtxV Sink Request :=
  match h with
  | None => None
  | Some o => Some {| ServeHTTP := fun c w r => spy EvTerminal (lift (ServeHTTP o c w r)) |}
  end.

(** A terminal unit that records at most its own invocation. *)
Definition quiet (k : Context CtxV -> M (observed U) unit) : Prop :=
  forall c s,
    trace (final (k c s)) = trace s \/
    trace (final (k c s)) = trace s ++ [EvTerminal].

End Observation.

(** ** Slices and chain objects in memory

    A Go slice is a window on a backing array: the array, the offset of the
    window, its length and its capacity.  Copying a slice copies the window,
    not the array.  [New] stores the slice it is given, and [append] writes
    into the backing array when the capacity allows; so two chains made
    from one slice share the array their steps are in.

    The memory holds the backing arrays and the chain objects.  The steps
    themselves act on the world of the request and cannot reach it. *)

Module Mem.

Record slice : Type := { arr : nat; off : nat; len : nat; cap : nat }.

(** The nil slice: no elements, no capacity. *)
Definition nil_slice : slice := {| arr := 0; off := 0; len := 0; cap := 0 |}.

(** [l[i] = x]. *)
Fixpoint update {A : Type} (l : list A) (i : nat) (x : A) : list A :=
  match l, i with
  | [], _ => []
  | _ :: l', O => x :: l'
  | y :: l', S j => y :: update l' j x
  end.

(** The array [a] with [vals] copied in from index [i] on. *)
Definition overwrite {A : Type} (a : list A) (i : nat) (vals : list A) : list A :=
  firstn i a ++ vals ++ skipn (i + length vals) a.

Section Memory.

Variables State CtxV Error Sink Request : Type.
Context {host : Host State CtxV Error Request}.

Local Notation Middleware := (Middleware State CtxV Sink Request).

(** The backing arrays, and the chain objects: a [Q] has the one field
    [fns], a slice. *)
Record memory : Type :=
  { arrays : list (list Middleware);
    chains : list slice }.

(** [*Q]: nil, or the address of a chain object. *)
Definition pointer : Type := option nat.

(** [s[0], ..., s[len(s)-1]] *)
Definition elements (m : memory) (s : slice) : list Middleware :=
  firstn (len s) (skipn (off s) (nth (arr s) (arrays m) [])).

(** A slice lies within its backing array. *)
Definition wf_slice (m : memory) (s : slice) : Prop :=
  len s <= cap s /\
  off s + cap s <= length (nth (arr s) (arrays m) []).

Definition read (s : slice) : M memory (list Middleware) :=
  fun m => Ret (elements m s) m.

(** [q.fns], read and assigned; through a nil pointer both panic. *)
Definition load_fns (q : pointer) : M memory slice :=
  fun m =>
    match q with
    | None => Panic nil_dereference m
    | Some a =>
        match nth_error (chains m) a with
        | Some s => Ret s m
        | None => Panic nil_dereference m
        end
    end.

Definition store_fns (q : pointer) (s : slice) : M memory unit :=
  fun m =>
    match q with
    | None => Panic nil_dereference m
    | Some a =>
        if a <? length (chains m)
        then Ret tt {| arrays := arrays m; chains := update (chains m) a s |}
        else Panic nil_dereference m
    end.

(** The capacity the runtime gives a backing array it allocates for
    [append], from the old capacity and the length needed.  The language
    leaves it open beyond its being enough; [append] takes at least the
    length needed whatever [grow] says. *)
Variable grow : nat -> nat -> nat.

(** [append(s, vals...)]: in place when the capacity allows, else into a
    new array that holds the elements of [s] followed by [vals]. *)
Definition append (s : slice) (vals : list Middleware) : M memory slice :=
  fun m =>
    let n := len s + length vals in
    if n <=? cap s
    then
      let a := nth (arr s) (arrays m) [] in
      Ret {| arr := arr s; off := off s; len := n; cap := cap s |}
          {| arrays := update (arrays m) (arr s) (overwrite a (off s + len s) vals);
             chains := chains m |}
    else
      let c := Nat.max n (grow (cap s) n) in
      Ret {| arr := length (arrays m); off := 0; len := n; cap := c |}
          {| arrays := arrays m ++ [elements m s ++ vals ++ repeat None (c - n)];
             chains := chains m |}.

(** The slice a call [f(v1, ..., vn)] of a variadic function passes: nil
    for no arguments, else a new array holding just the arguments.  A call
    [f(s...)] passes [s] itself. *)
Definition args (vals : list Middleware) : M memory slice :=
  fun m =>
    match vals with
    | [] => Ret nil_slice m
    | _ :: _ =>
        Ret {| arr := length (arrays m); off := 0;
               len := length vals; cap := length vals |}
            {| arrays := arrays m ++ [vals]; chains := chains m |}
    end.

(** [func New(fns ...Middleware) *Q]: a new chain object that holds the
    slice it was given. *)
Definition New (fns : slice) : M memory pointer :=
  fun m =>
    Ret (Some (length (chains m)))
        {| arrays := arrays m; chains := chains m ++ [fns] |}.

(** [func (q *Q) Add(fns ...Middleware)]: [q.fns = append(q.fns, fns...)] *)
Definition Add (q : pointer) (fns : slice) : M memory unit :=
  s <- load_fns q ;;
  vals <- read fns ;;
  s' <- append s vals ;;
  store_fns q s'.

(** The steps of the chain [q], as [chain(q.fns)] reads them. *)
Definition contents (q : pointer) : M memory (list Middleware) :=
  s <- load_fns q ;;
  read s.

(** [func (q *Q) Run(c, w, r)], in the memory [m]. *)
Definition Run (q : pointer) (c : Context CtxV) (w : Sink) (r : Request)
  (m : memory) : M State unit :=
  match contents q m with
  | Ret fs _ =>
      _ <- call (chain fs) c w r ;;
      ret tt
  | Panic p _ => throw p
  end.

(** [func (q *Q) Then(fn HandlerFunc) func(http.ResponseWriter, *http.Request)].
    The function it returns is called later, against the memory as it is
    then, which is its first argument.  Its body reads none of it: [chn] was
    composed, from the steps [q] held, when [Then] ran. *)
Definition Then (q : pointer) (fn : HandlerFunc State CtxV Sink Request)
  : M memory (memory -> Sink -> Request -> M State unit) :=
  fs <- contents q ;;
  ret (let chn := chain fs in
       fun _ w r =>
         c <- NewContext r ;;
         c <- call chn c w r ;;
         e <- Err c ;;
         match e with
         | None => call_fn fn c w r
         | Some _ => ret tt
         end).

(** [func (q *Q) Handle(h Handler) http.Handler] *)
Definition Handle (q : pointer) (h : Handler State CtxV Sink Request)
  : M memory (handler State CtxV Sink Request) :=
  fs <- contents q ;;
  ret (let mw := chain fs in
       {| mw := mw; h_handler := h |}).

End Memory.

End Mem.


(** ** A concrete host

    A small world on which the definitions can be run.  A Context holds a
    number and is either live or cancelled; the world is the list of
    numbers the terminal units have written out. *)

Module Demo.

Inductive ctx : Type :=
| Live (v : nat)
| Cancelled (v : nat).

Definition value (c : option ctx) : nat :=
  match c with
  | Some (Live v) => v
  | Some (Cancelled v) => v
  | None => 0
  end.

Definition err (cv : ctx) (_ : list nat) : option string :=
  match cv with
  | Live _ => None
  | Cancelled _ => Some "context canceled"%string
  end.

(** A host that derives the live Context 0 for every request, and one whose
    requests are already cancelled when they arrive. *)
Definition live_host : Host (list nat) ctx string unit :=
  {| ctx_err := err; new_context := fun _ => ret (Some (Live 0)) |}.

Definition cancelled_host : Host (list nat) ctx string unit :=
  {| ctx_err := err; new_context := fun _ => ret (Some (Cancelled 0)) |}.

Definition step : Type := option ctx -> unit -> unit -> M (list nat) (option ctx).

(** Middleware: [tag n] returns a live Context holding [n], [pass] returns
    the Context it was given, [abort n] returns a cancelled Context, [drop]
    returns the nil Context. *)
Definition tag (n : nat) : step := fun _ _ _ => ret (Some (Live n)).
Definition pass : step := fun c _ _ => ret c.
Definition abort (n : nat) : step := fun _ _ _ => ret (Some (Cancelled n)).
Definition drop : step := fun _ _ _ => ret None.

(** A terminal unit that writes out the number its Context holds. *)
Definition record : option ctx -> unit -> unit -> M (list nat) unit :=
  fun c _ _ u => Ret tt (u ++ [value c]).

(** A middleware that panics. *)
Definition crash : step := fun _ _ _ => throw (raised "boom").

(** A memory with one backing array of capacity 2 whose first entry is
    [tag 1], and the slice of length 1 on it: what a caller holds after
    [s := make([]Middleware, 1, 2); s[0] = tag1]. *)
Definition spare : Mem.memory (list nat) ctx unit unit :=
  {| Mem.arrays := [[Some (tag 1); None]]; Mem.chains := [] |}.

Definition spare_slice : Mem.slice :=
  {| Mem.arr := 0; Mem.off := 0; Mem.len := 1; Mem.cap := 2 |}.

(** A runtime that doubles the capacity. *)
Definition doubling (c n : nat) : nat := 2 * c.

(** A memory with three backing arrays and no chain yet, and a slice on
    each array. *)
Definition shelf : Mem.memory (list nat) ctx unit unit :=
  {| Mem.arrays := [[Some (tag 1); None];
                    [Some (tag 2)];
                    [Some (tag 1); Some (tag 2)]];
     Mem.chains := [] |}.

Definition second_slice : Mem.slice :=
  {| Mem.arr := 1; Mem.off := 0; Mem.len := 1; Mem.cap := 1 |}.

Definition both_slice : Mem.slice :=
  {| Mem.arr := 2; Mem.off := 0; Mem.len := 2; Mem.cap := 2 |}.


End Demo.

(** ** Sequencing laws *)

Section Sequencing.

Variables State A B C : Type.

Lemma bind_ret_l (a : A) (k : A -> M State B) (s : State) :
  bind (ret a) k s = k a s.
Proof. reflexivity. Qed.

Lemma bind_ret_r (m : M State A) (s : State) :
  bind m (fun a => ret a) s = m s.
Proof. unfold bind, ret. destruct (m s); reflexivity. Qed.

Lemma bind_assoc (m : M State A) (k : A -> M State B) (k' : B -> M State C)
  (s : State) :
  bind (bind m k) k' s = bind m (fun a => bind (k a) k') s.
Proof. unfold bind. destruct (m s); reflexivity. Qed.

Lemma bind_ext (m : M State A) (k1 k2 : A -> M State B) (s : State) :
  (forall a s', k1 a s' = k2 a s') -> bind m k1 s = bind m k2 s.
Proof. intros H. unfold bind. destruct (m s); [apply H | reflexivity]. Qed.

Lemma bind_Ret (m : M State A) (k : A -> M State B) (s s' : State) (a : A)
  (H : m s = Ret a s') : bind m k s = k a s'.
Proof. unfold bind. rewrite H. reflexivity. Qed.

Lemma bind_Panic (m : M State A) (k : A -> M State B) (s s' : State) (p : panic)
  (H : m s = Panic p s') : bind m k s = Panic p s'.
Proof. unfold bind. rewrite H. reflexivity. Qed.

End Sequencing.

Arguments bind_Ret [State A B m] k [s s' a] H.
Arguments bind_Panic [State A B m] k [s s' p] H.

(** ** The composition algorithm *)

Section Composition.

Variables State CtxV Error Sink Request : Type.
Context {host : Host State CtxV Error Request}.

Local Notation Middleware := (Middleware State CtxV Sink Request).

Implicit Types (fns : list Middleware) (f next : Middleware).
Implicit Types (c : Context CtxV) (w : Sink) (r : Request) (s : State).

Lemma firstn_snoc_nth fns (d : Middleware) (i : nat) :
  i < length fns -> firstn (S i) fns = firstn i fns ++ [nth i fns d].
Proof.
  revert i. induction fns as [|f fns IH]; intros i Hi; simpl in Hi.
  - lia.
  - destruct i as [|i]; [reflexivity|].
    change (firstn (S (S i)) (f :: fns)) with (f :: firstn (S i) fns).
    rewrite IH by lia. reflexivity.
Qed.

(** The loop of [chain] folds [link] over the sequence from the right. *)
Lemma chain_loop_fold fns (i : nat) next :
  i <= length fns ->
  chain_loop fns i next = fold_right link next (firstn i fns).
Proof.
  revert next. induction i as [|i IH]; intros next Hi.
  - reflexivity.
  - simpl chain_loop. rewrite IH by lia.
    rewrite (firstn_snoc_nth fns None) by lia.
    rewrite fold_right_app. reflexivity.
Qed.

Lemma chain_nil : chain ([] : list Middleware) = Some (fun c _ _ => ret c).
Proof. reflexivity. Qed.

Lemma chain_cons f fns : chain (f :: fns) = link f (fold_right link None fns).
Proof.
  unfold chain. cbv zeta.
  change (Nat.eqb (length (f :: fns)) 0) with false. cbv iota.
  rewrite chain_loop_fold by lia.
  rewrite firstn_all. reflexivity.
Qed.

Lemma fold_link_chain f fns :
  fold_right link None (f :: fns) = chain (f :: fns).
Proof. rewrite chain_cons. reflexivity. Qed.

Lemma call_link f next c w r s :
  call (link f next) c w r s
  = (c1 <- call f c w r ;;
     e <- Err c1 ;;
     match e with
     | Some _ => ret c1
     | None =>
         match next with
         | Some _ => call next c1 w r
         | None => ret c1
         end
     end) s.
Proof.
  unfold link. cbn [call].
  apply bind_ext; intros c1 s1.
  apply bind_ext; intros [e|] s2; [reflexivity|].
  apply bind_ret_r.
Qed.

(** [chain] computes the composed function of the specification. *)
Lemma call_chain_composed fns c w r s :
  call (chain fns) c w r s = composed fns c w r s.
Proof.
  revert c s. induction fns as [|f fns IH]; intros c s.
  - reflexivity.
  - rewrite chain_cons, call_link. cbn [composed].
    apply bind_ext; intros c1 s1.
    apply bind_ext; intros [e|] s2; [reflexivity|].
    destruct fns as [|g fns]; [reflexivity|].
    rewrite fold_link_chain.
    rewrite <- IH. rewrite chain_cons. reflexivity.
Qed.

(** Steps that all pass are transparent to what follows them. *)
Lemma composed_pass_all fns rest c w r s c' s'
  (H : pass_all fns c w r s = Some (c', s')) :
  composed (fns ++ rest) c w r s = composed rest c' w r s'.
Proof.
  revert c s H. induction fns as [|[m|] fns IH]; intros c s H; cbn in H.
  - injection H as -> ->. reflexivity.
  - destruct (m c w r s) as [[cv|] s1|] eqn:Hm; try discriminate.
    destruct (ctx_err cv s1) eqn:He; try discriminate.
    cbn [app composed call].
    rewrite (bind_Ret _ Hm). cbn [Err].
    unfold bind at 1. rewrite He.
    apply IH, H.
  - discriminate.
Qed.

Lemma pass_all_app fns rest c w r s c' s'
  (H : pass_all fns c w r s = Some (c', s')) :
  pass_all (fns ++ rest) c w r s = pass_all rest c' w r s'.
Proof.
  revert c s H. induction fns as [|[m|] fns IH]; intros c s H; cbn in H.
  - injection H as -> ->. reflexivity.
  - cbn [app pass_all].
    destruct (m c w r s) as [[cv|] s1|]; try discriminate.
    destruct (ctx_err cv s1); try discriminate.
    apply IH, H.
  - discriminate.
Qed.

Lemma nth_error_split_at (A : Type) (l : list A) (k : nat) (x : A)
  (H : nth_error l k = Some x) : l = firstn k l ++ x :: skipn (S k) l.
Proof.
  revert k H. induction l as [|y l IH]; intros [|k] H; try discriminate.
  - injection H as ->. reflexivity.
  - cbn in H. cbn [firstn skipn app]. f_equal. apply (IH k H).
Qed.

(** The first step to return a failed Context ends the run, and its
    Context is the result. *)
Lemma composed_first_failure fns k m c w r s ck sk cv e s' :
  pass_all (firstn k fns) c w r s = Some (ck, sk) ->
  nth_error fns k = Some (Some m) ->
  m ck w r sk = Ret (Some cv) s' ->
  ctx_err cv s' = Some e ->
  composed fns c w r s = Ret (Some cv) s'.
Proof.
  intros Hpre Hk Hm He.
  rewrite nth_error_split_at with (1 := Hk).
  rewrite composed_pass_all with (1 := Hpre).
  cbn [composed call]. rewrite (bind_Ret _ Hm). cbn [Err].
  unfold bind. rewrite He. reflexivity.
Qed.

(** When every step passes, the result is the Context of the last one. *)
Lemma composed_all_pass fns c w r s c' s'
  (H : pass_all fns c w r s = Some (c', s')) :
  composed fns c w r s = Ret c' s'.
Proof.
  rewrite <- (app_nil_r fns).
  rewrite composed_pass_all with (1 := H). reflexivity.
Qed.

(** A step that returns the nil Context makes the check after it panic. *)
Lemma composed_nil_return fns k m c w r s ck sk s' :
  pass_all (firstn k fns) c w r s = Some (ck, sk) ->
  nth_error fns k = Some (Some m) ->
  m ck w r sk = Ret None s' ->
  composed fns c w r s = Panic nil_dereference s'.
Proof.
  intros Hpre Hk Hm.
  rewrite nth_error_split_at with (1 := Hk).
  rewrite composed_pass_all with (1 := Hpre).
  cbn [composed call]. rewrite (bind_Ret _ Hm). reflexivity.
Qed.

End Composition.

Arguments composed_all_pass [State CtxV Error Sink Request host fns c w r s c' s'] H.

(** ** Observed runs *)

Section ObservedRuns.

Variables U CtxV Error Sink Request : Type.
Context {host : Host U CtxV Error Request}.

Local Notation Middleware := (Middleware U CtxV Sink Request).

Implicit Types (bs : list Middleware) (tr : list event) (u : U).
Implicit Types (c : Context CtxV) (w : Sink) (r : Request) (s : observed U).

Lemma lift_Ret (A : Type) (m : M U A) tr u (a : A) u'
  (H : m u = Ret a u') :
  lift m {| trace := tr; world := u |} = Ret a {| trace := tr; world := u' |}.
Proof. unfold lift; cbn. rewrite H. reflexivity. Qed.

Lemma lift_Panic (A : Type) (m : M U A) tr u p u'
  (H : m u = Panic p u') :
  lift m {| trace := tr; world := u |} = Panic p {| trace := tr; world := u' |}.
Proof. unfold lift; cbn. rewrite H. reflexivity. Qed.

(** A lifted computation leaves the record as it found it. *)
Lemma trace_final_lift (A : Type) (m : M U A) s :
  trace (final (lift m s)) = trace s.
Proof. unfold lift. destruct (m (world s)); reflexivity. Qed.

Lemma length_watch_from bs i : length (watch_from i bs) = length bs.
Proof. revert i. induction bs as [|b bs IH]; intros i; cbn; [|rewrite IH]; reflexivity. Qed.

Lemma watch_from_app bs bs' i :
  watch_from i (bs ++ bs') = watch_from i bs ++ watch_from (i + length bs) bs'.
Proof.
  revert i. induction bs as [|b bs IH]; intros i; cbn [watch_from app length].
  - rewrite Nat.add_0_r. reflexivity.
  - rewrite IH. replace (i + S (length bs)) with (S i + length bs) by lia.
    reflexivity.
Qed.

Lemma firstn_watch_from bs i k :
  firstn k (watch_from i bs) = watch_from i (firstn k bs).
Proof.
  revert i k. induction bs as [|b bs IH]; intros i [|k]; cbn; try reflexivity.
  rewrite IH. reflexivity.
Qed.

Lemma nth_error_watch_from bs i k f
  (H : nth_error bs k = Some f) :
  nth_error (watch_from i bs) k = Some (watch (i + k) f).
Proof.
  revert i k H. induction bs as [|b bs IH]; intros i [|k] H; try discriminate.
  - injection H as ->. cbn. rewrite Nat.add_0_r. reflexivity.
  - cbn in H |- *. rewrite IH with (1 := H).
    replace (i + S k) with (S (i + k)) by lia. reflexivity.
Qed.

(** Steps that all pass are each recorded once, in order. *)
Lemma pass_all_watch bs i c w r tr u c' u'
  (H : pass_all bs c w r u = Some (c', u')) :
  pass_all (watch_from i bs) c w r {| trace := tr; world := u |}
  = Some (c', {| trace := tr ++ map EvStep (seq i (length bs)); world := u' |}).
Proof.
  revert i c tr u H. induction bs as [|[m|] bs IH]; intros i c tr u H; cbn in H.
  - injection H as -> ->. cbn. rewrite app_nil_r. reflexivity.
  - destruct (m c w r u) as [[cv|] u1|] eqn:Hm; try discriminate.
    destruct (ctx_err cv u1) eqn:He; try discriminate.
    cbn [watch_from watch pass_all]. unfold spy. cbn [trace world].
    rewrite lift_Ret with (1 := Hm). cbn. rewrite He.
    rewrite IH with (1 := H). rewrite <- app_assoc. reflexivity.
  - discriminate.
Qed.

(** Whatever happens, an observed run of the composed chain records an
    initial segment of the positions, each once and in order. *)
Lemma composed_trace bs i c w r s :
  exists n, n <= length bs /\
    trace (final (composed (watch_from i bs) c w r s))
    = trace s ++ map EvStep (seq i n).
Proof.
  revert i c s. induction bs as [|[m|] bs IH]; intros i c s.
  - exists 0. cbn. rewrite app_nil_r. split; [lia | reflexivity].
  - cbn [watch_from watch composed call]. unfold spy.
    unfold bind at 1. unfold lift at 1. cbn [trace world].
    destruct (m c w r (world s)) as [[cv|] u1|].
    + cbn [Err]. unfold bind at 1. cbn [ctx_err observed_host world].
      destruct (ctx_err cv u1).
      * exists 1. cbn. split; [lia | reflexivity].
      * destruct (IH (S i) (Some cv)
          {| trace := trace s ++ [EvStep i]; world := u1 |}) as (n & Hn & E).
        exists (S n). split; [cbn; lia|].
        rewrite E. cbn. rewrite <- app_assoc. reflexivity.
    + exists 1. cbn. split; [lia | reflexivity].
    + exists 1. cbn. split; [lia | reflexivity].
  - exists 0. cbn. rewrite app_nil_r. split; [lia | reflexivity].
Qed.

End ObservedRuns.

(** ** The execution modes *)

Section Modes.

Variables U CtxV Error Sink Request : Type.
Context {host : Host U CtxV Error Request}.

Local Notation Middleware := (Middleware U CtxV Sink Request).

Implicit Types (c : Context CtxV) (w : Sink) (r : Request) (u : U).

(** What [Then] and [Handle] do with the Context of a chain that passed. *)
Lemma Then_composed (q : Q U CtxV Sink Request) fn w r u :
  Then q fn w r u
  = (c <- NewContext r ;;
     c <- composed (fns q) c w r ;;
     e <- Err c ;;
     match e with
     | None => call_fn fn c w r
     | Some _ => ret tt
     end) u.
Proof.
  unfold Then. apply bind_ext; intros c0 u0.
  unfold bind at 1 3. rewrite call_chain_composed. reflexivity.
Qed.

Lemma ServeHTTP_composed (q : Q U CtxV Sink Request) h w r u :
  handler_ServeHTTP (Handle q h) w r u
  = (c <- NewContext r ;;
     c <- composed (fns q) c w r ;;
     e <- Err c ;;
     match e with
     | None => serve h c w r
     | Some _ => ret tt
     end) u.
Proof.
  unfold handler_ServeHTTP, Handle. cbn [mw h_handler].
  apply bind_ext; intros c0 u0.
  unfold bind at 1 3. rewrite call_chain_composed. reflexivity.
Qed.

(** [Run] is the composed chain with its result dropped. *)
Lemma Run_composed (q : Q U CtxV Sink Request) c w r u :
  Run q c w r u = (_ <- composed (fns q) c w r ;; ret tt) u.
Proof. unfold Run, bind. rewrite call_chain_composed. reflexivity. Qed.

Lemma final_Run (q : Q U CtxV Sink Request) c w r u :
  final (Run q c w r u) = final (composed (fns q) c w r u).
Proof.
  rewrite Run_composed. unfold bind.
  destruct (composed (fns q) c w r u); reflexivity.
Qed.


(** Once the chain has returned a failed Context, the handlers return
    without running the terminal unit. *)
Lemma Then_failed (q : Q U CtxV Sink Request) fn w r u c0 u0 cv e u'
  (Hnew : NewContext r u = Ret c0 u0)
  (Hrun : composed (fns q) c0 w r u0 = Ret (Some cv) u')
  (He : ctx_err cv u' = Some e) :
  Then q fn w r u = Ret tt u'.
Proof.
  rewrite Then_composed, (bind_Ret _ Hnew), (bind_Ret _ Hrun).
  cbn [Err]. unfold bind. rewrite He. reflexivity.
Qed.

Lemma ServeHTTP_failed (q : Q U CtxV Sink Request) h w r u c0 u0 cv e u'
  (Hnew : NewContext r u = Ret c0 u0)
  (Hrun : composed (fns q) c0 w r u0 = Ret (Some cv) u')
  (He : ctx_err cv u' = Some e) :
  handler_ServeHTTP (Handle q h) w r u = Ret tt u'.
Proof.
  rewrite ServeHTTP_composed, (bind_Ret _ Hnew), (bind_Ret _ Hrun).
  cbn [Err]. unfold bind. rewrite He. reflexivity.
Qed.

End Modes.

(** ** Short-circuit *)

Section ShortCircuit.

Variables U CtxV Error Sink Request : Type.
Context {host : Host U CtxV Error Request}.

Local Notation Middleware := (Middleware U CtxV Sink Request).

(** The observed run up to the first failed Context. *)
Lemma observed_first_failure
  (bodies : list Middleware) (k : nat)
  (m : Context CtxV -> Sink -> Request -> M U (Context CtxV))
  (c : Context CtxV) (w : Sink) (r : Request) (u : U) (tr : list event)
  (ck : Context CtxV) (uk : U) (cv : CtxV) (e : Error) (u' : U) :
  pass_all (firstn k bodies) c w r u = Some (ck, uk) ->
  nth_error bodies k = Some (Some m) ->
  m ck w r uk = Ret (Some cv) u' ->
  ctx_err cv u' = Some e ->
  composed (watch_from 0 bodies) c w r {| trace := tr; world := u |}
  = Ret (Some cv) {| trace := tr ++ map EvStep (seq 0 (S k)); world := u' |}.
Proof.
  intros Hpre Hk Hm He.
  assert (Hlen : k < length bodies) by (apply nth_error_Some; congruence).
  replace (tr ++ map EvStep (seq 0 (S k)))
    with ((tr ++ map EvStep (seq 0 (length (firstn k bodies)))) ++ [EvStep (0 + k)]).
  2:{ rewrite length_firstn, Nat.min_l by lia.
      rewrite seq_S, map_app, app_assoc. reflexivity. }
  eapply composed_first_failure with (k := k).
  - rewrite firstn_watch_from. apply pass_all_watch, Hpre.
  - rewrite nth_error_watch_from with (1 := Hk). reflexivity.
  - unfold spy. cbn [trace world]. apply lift_Ret, Hm.
  - cbn. exact He.
Qed.

(** C1.  Let the middleware at position [k] be the first to return a Context
    whose error observation is non-nil: the steps before it each return a
    Context that carries no failure, and step [k], run on the Context of step
    [k-1], returns [cv] with [Err() = e].  Then the composed chain returns
    exactly [cv], in the world step [k] left; and when every step reports its
    invocation, the record holds positions [0..k], once each and in order:
    no position after [k] was invoked.  A handler obtained from [Then] or
    [Handle] that runs the chain on [c] as its fresh Context stops there
    too: the record is the same, the terminal unit was not invoked. *)
Theorem chain_short_circuit
  (bodies : list Middleware) (k : nat)
  (m : Context CtxV -> Sink -> Request -> M U (Context CtxV))
  (c : Context CtxV) (w : Sink) (r : Request) (u : U) (tr : list event)
  (ck : Context CtxV) (uk : U) (cv : CtxV) (e : Error) (u' : U) :
  pass_all (firstn k bodies) c w r u = Some (ck, uk) ->
  nth_error bodies k = Some (Some m) ->
  m ck w r uk = Ret (Some cv) u' ->
  ctx_err cv u' = Some e ->
  call (chain bodies) c w r u = Ret (Some cv) u' /\
  call (chain (watch_from 0 bodies)) c w r {| trace := tr; world := u |}
  = Ret (Some cv) {| trace := tr ++ map EvStep (seq 0 (S k)); world := u' |} /\
  forall (fn : HandlerFunc U CtxV Sink Request) (hd : Handler U CtxV Sink Request)
         (u0 : U),
    NewContext r u0 = Ret c u ->
    Then (New (watch_from 0 bodies)) (watch_fn fn) w r
      {| trace := tr; world := u0 |}
    = Ret tt {| trace := tr ++ map EvStep (seq 0 (S k)); world := u' |} /\
    handler_ServeHTTP (Handle (New (watch_from 0 bodies)) (watch_handler hd)) w r
      {| trace := tr; world := u0 |}
    = Ret tt {| trace := tr ++ map EvStep (seq 0 (S k)); world := u' |}.
Proof.
  intros Hpre Hk Hm He.
  assert (Hobs : composed (watch_from 0 bodies) c w r {| trace := tr; world := u |}
                 = Ret (Some cv)
                     {| trace := tr ++ map EvStep (seq 0 (S k)); world := u' |})
    by (eapply observed_first_failure; eassumption).
  split; [|split].
  - rewrite call_chain_composed. eapply composed_first_failure; eassumption.
  - rewrite call_chain_composed. exact Hobs.
  - intros fn hd u0 Hnew.
    assert (Hn : NewContext (State := observed U) r {| trace := tr; world := u0 |}
                 = Ret c {| trace := tr; world := u |})
      by (apply lift_Ret, Hnew).
    split.
    + eapply Then_failed; [exact Hn | exact Hobs | exact He].
    + eapply ServeHTTP_failed; [exact Hn | exact Hobs | exact He].
Qed.

End ShortCircuit.

Lemma chain_short_circuit_witness :
  call (chain (host := Demo.live_host)
          [Some (Demo.tag 1); Some (Demo.abort 2); Some (Demo.tag 3)])
       None tt tt []
  = Ret (Some (Demo.Cancelled 2)) [] /\
  call (chain (host := observed_host (h := Demo.live_host))
          (watch_from 0 [Some (Demo.tag 1); Some (Demo.abort 2); Some (Demo.tag 3)]))
       None tt tt {| trace := []; world := [] |}
  = Ret (Some (Demo.Cancelled 2))
        {| trace := [] ++ map EvStep (seq 0 2); world := [] |}.
Proof.
  destruct (chain_short_circuit (host := Demo.live_host)
              [Some (Demo.tag 1); Some (Demo.abort 2); Some (Demo.tag 3)] 1
              None tt tt [] []
              (m := Demo.abort 2) (ck := Some (Demo.Live 1)) (uk := [])
              (cv := Demo.Cancelled 2) (e := "context canceled"%string)
              (u' := []) eq_refl eq_refl eq_refl eq_refl)
    as (H1 & H2 & _).
  split; [exact H1 | exact H2].
Defined.

(** ** Every step passes *)

Section TerminalOnce.

Variables U CtxV Error Sink Request : Type.
Context {host : Host U CtxV Error Request}.

Local Notation Middleware := (Middleware U CtxV Sink Request).

Implicit Types (c : Context CtxV) (w : Sink) (r : Request) (u : U).

Lemma pass_all_snoc (init : list Middleware) m c w r u cp up cv un
  (Hinit : pass_all init c w r u = Some (cp, up))
  (Hm : m cp w r up = Ret (Some cv) un)
  (He : ctx_err cv un = None) :
  pass_all (init ++ [Some m]) c w r u = Some (Some cv, un).
Proof.
  rewrite pass_all_app with (1 := Hinit). cbn. rewrite Hm, He. reflexivity.
Qed.

(** C2.  Take a sequence in which no step signals failure: run from the
    freshly derived Context, the steps before the last each return a Context
    that carries no failure, and the last step returns [cv], which carries
    none either.  Then the handler obtained from [Then], and the one obtained
    from [Handle], run the terminal unit on exactly [cv], in the world the
    last step left, and their outcome is the terminal unit's.  When steps and
    terminal unit report their invocations, the record at the end holds every
    position once, in order, followed by one invocation of the terminal
    unit. *)
Theorem terminal_runs_once
  (init : list Middleware)
  (m : Context CtxV -> Sink -> Request -> M U (Context CtxV))
  (f : Context CtxV -> Sink -> Request -> M U unit)
  (w : Sink) (r : Request) (u : U) (tr : list event)
  (c0 : Context CtxV) (u0 : U) (cp : Context CtxV) (up : U) (cv : CtxV) (un : U) :
  NewContext r u = Ret c0 u0 ->
  pass_all init c0 w r u0 = Some (cp, up) ->
  m cp w r up = Ret (Some cv) un ->
  ctx_err cv un = None ->
  let q := New (init ++ [Some m]) in
  let oq := New (watch_from 0 (init ++ [Some m])) in
  let s := {| trace := tr; world := u |} in
  let s' := {| trace := tr ++ map EvStep (seq 0 (length init + 1)) ++ [EvTerminal];
               world := un |} in
  Then q (Some f) w r u = f (Some cv) w r un /\
  handler_ServeHTTP (Handle q (Some {| ServeHTTP := f |})) w r u
  = f (Some cv) w r un /\
  Then oq (watch_fn (Some f)) w r s = lift (f (Some cv) w r) s' /\
  handler_ServeHTTP (Handle oq (watch_handler (Some {| ServeHTTP := f |}))) w r s
  = lift (f (Some cv) w r) s' /\
  trace (final (Then oq (watch_fn (Some f)) w r s)) = trace s'.
Proof.
  intros Hnew Hinit Hm He q oq s s'.
  assert (Hall : pass_all (init ++ [Some m]) c0 w r u0 = Some (Some cv, un))
    by (eapply pass_all_snoc; eassumption).
  assert (Hplain : forall k : Context CtxV -> M U unit,
    (c <- NewContext r ;; c <- composed (init ++ [Some m]) c w r ;;
     e <- Err c ;; match e with None => k c | Some _ => ret tt end) u
    = k (Some cv) un).
  { intros k. rewrite (bind_Ret _ Hnew).
    rewrite (bind_Ret _ (composed_all_pass Hall)).
    cbn [Err]. unfold bind. rewrite He. reflexivity. }
  assert (Hobs : forall k : Context CtxV -> M (observed U) unit,
    (c <- NewContext r ;; c <- composed (watch_from 0 (init ++ [Some m])) c w r ;;
     e <- Err c ;; match e with None => k c | Some _ => ret tt end) s
    = k (Some cv) {| trace := tr ++ map EvStep (seq 0 (length init + 1)); world := un |}).
  { intros k.
    assert (Hn : NewContext (State := observed U) r s
                 = Ret c0 {| trace := tr; world := u0 |})
      by (apply lift_Ret, Hnew).
    rewrite (bind_Ret _ Hn).
    assert (Hw : pass_all (watch_from 0 (init ++ [Some m])) c0 w r
                   {| trace := tr; world := u0 |}
                 = Some (Some cv, {| trace := tr ++ map EvStep (seq 0 (length init + 1));
                                     world := un |})).
    { rewrite pass_all_watch with (1 := Hall).
      rewrite length_app. reflexivity. }
    rewrite (bind_Ret _ (composed_all_pass Hw)).
    cbn [Err]. unfold bind. cbn [ctx_err observed_host world].
    rewrite He. reflexivity. }
  assert (Hs' : forall A (k : M U A),
    spy EvTerminal (lift k)
      {| trace := tr ++ map EvStep (seq 0 (length init + 1)); world := un |}
    = lift k s').
  { intros A k. unfold spy. cbn [trace world]. rewrite <- app_assoc. reflexivity. }
  repeat split.
  - rewrite Then_composed. apply (Hplain (fun c => call_fn (Some f) c w r)).
  - rewrite ServeHTTP_composed.
    apply (Hplain (fun c => serve (Some {| ServeHTTP := f |}) c w r)).
  - rewrite Then_composed. subst oq. cbn [fns New].
    rewrite (Hobs (fun c => call_fn (watch_fn (Some f)) c w r)). apply Hs'.
  - rewrite ServeHTTP_composed. subst oq. cbn [fns New].
    rewrite (Hobs (fun c => serve (watch_handler (Some {| ServeHTTP := f |})) c w r)).
    apply Hs'.
  - rewrite Then_composed. subst oq. cbn [fns New].
    rewrite (Hobs (fun c => call_fn (watch_fn (Some f)) c w r)).
    cbn [call_fn watch_fn]. rewrite Hs'. apply trace_final_lift.
Qed.

End TerminalOnce.

Lemma terminal_runs_once_witness :
  Then (host := Demo.live_host)
       (New [Some (Demo.tag 1); Some (Demo.tag 2)]) (Some Demo.record) tt tt []
  = Ret tt [2] /\
  trace (final (Then (host := observed_host (h := Demo.live_host))
                     (New (watch_from 0 [Some (Demo.tag 1); Some (Demo.tag 2)]))
                     (watch_fn (Some Demo.record)) tt tt
                     {| trace := []; world := [] |}))
  = [EvStep 0; EvStep 1; EvTerminal].
Proof.
  destruct (terminal_runs_once (host := Demo.live_host)
              [Some (Demo.tag 1)] (Demo.tag 2) Demo.record tt tt [] []
              (c0 := Some (Demo.Live 0)) (u0 := [])
              (cp := Some (Demo.Live 1)) (up := [])
              (cv := Demo.Live 2) (un := [])
              eq_refl eq_refl eq_refl eq_refl)
    as (H1 & _ & _ & _ & H5).
  split; [exact H1 | exact H5].
Defined.

(** ** The empty chain *)

Section EmptyChain.

Variables U CtxV Error Sink Request : Type.
Context {host : Host U CtxV Error Request}.

Local Notation Middleware := (Middleware U CtxV Sink Request).

(** C3, as amended.  On the empty sequence the composed function is the
    identity: it returns the Context it was given and leaves the world as it
    was, no step being there to invoke.  The handlers obtained from [Then] and
    from [Handle] still check the Context before they run the terminal unit;
    so they behave as the terminal unit invoked directly on the freshly
    derived Context provided that Context is non-nil and carries no
    failure. *)
Theorem empty_chain
  (fn : HandlerFunc U CtxV Sink Request) (h : Handler U CtxV Sink Request)
  (w : Sink) (r : Request) (u : U) (cv : CtxV) (u0 : U) :
  NewContext r u = Ret (Some cv) u0 ->
  ctx_err cv u0 = None ->
  (forall c u1, call (chain ([] : list Middleware)) c w r u1 = Ret c u1) /\
  Then (New []) fn w r u = direct fn w r u /\
  handler_ServeHTTP (Handle (New []) h) w r u = direct_serve h w r u.
Proof.
  intros Hnew He. split; [reflexivity|]. split.
  - unfold Then, direct. cbn [fns New].
    rewrite !(bind_Ret _ Hnew). cbn. unfold bind, ret. rewrite He. reflexivity.
  - unfold handler_ServeHTTP, Handle, direct_serve. cbn [fns New mw h_handler].
    rewrite !(bind_Ret _ Hnew). cbn. unfold bind, ret. rewrite He. reflexivity.
Qed.

End EmptyChain.

Lemma empty_chain_witness :
  (forall c u1,
     call (chain (host := Demo.live_host) []) c tt tt u1 = Ret c u1) /\
  Then (host := Demo.live_host) (New []) (Some Demo.record) tt tt []
  = direct (host := Demo.live_host) (Some Demo.record) tt tt [] /\
  handler_ServeHTTP (host := Demo.live_host)
    (Handle (host := Demo.live_host) (New [])
       (Some {| ServeHTTP := Demo.record |})) tt tt []
  = direct_serve (host := Demo.live_host)
      (Some {| ServeHTTP := Demo.record |}) tt tt [].
Proof.
  apply (empty_chain (host := Demo.live_host) (Some Demo.record)
           (Some {| ServeHTTP := Demo.record |}) tt tt []
           (cv := Demo.Live 0) (u0 := []));
    reflexivity.
Defined.

(** C3 as stated fails: when the freshly derived Context already carries a
    failure, the handler of the empty chain returns without running the
    terminal unit, whereas the terminal unit invoked directly writes its
    output. *)
Lemma empty_chain_not_direct :
  Then (host := Demo.cancelled_host) (New []) (Some Demo.record) tt tt []
  = Ret tt [] /\
  direct (host := Demo.cancelled_host) (Some Demo.record) tt tt []
  = Ret tt [0] /\
  Then (host := Demo.cancelled_host) (New []) (Some Demo.record) tt tt []
  <> direct (host := Demo.cancelled_host) (Some Demo.record) tt tt [].
Proof.
  split; [reflexivity|]. split; [reflexivity|].
  cbv. discriminate.
Qed.

(** ** Run *)

Section RunStops.

Variables U CtxV Error Sink Request : Type.
Context {host : Host U CtxV Error Request}.

Local Notation Middleware := (Middleware U CtxV Sink Request).

(** C4, as amended.  In the chain [A, B], let [A] return the Context [cv],
    which carries a failure.  Then the composed chain that [Run] executes
    returns [cv] in the world [A] left, and the record of an observed run
    holds position 0 alone: [B] did not run; nor does the terminal unit when
    the chain is run by a handler obtained from [Then].  [Run] itself has
    no result: it drops the Context and returns nothing. *)
Theorem run_stops_at_failure
  (A : Context CtxV -> Sink -> Request -> M U (Context CtxV)) (B : Middleware)
  (c : Context CtxV) (w : Sink) (r : Request) (u : U) (tr : list event)
  (cv : CtxV) (e : Error) (uA : U) :
  A c w r u = Ret (Some cv) uA ->
  ctx_err cv uA = Some e ->
  call (chain [Some A; B]) c w r u = Ret (Some cv) uA /\
  Run (New [Some A; B]) c w r u = Ret tt uA /\
  call (chain (watch_from 0 [Some A; B])) c w r {| trace := tr; world := u |}
  = Ret (Some cv) {| trace := tr ++ [EvStep 0]; world := uA |} /\
  Run (New (watch_from 0 [Some A; B])) c w r {| trace := tr; world := u |}
  = Ret tt {| trace := tr ++ [EvStep 0]; world := uA |} /\
  forall (fn : HandlerFunc U CtxV Sink Request) (u0 : U),
    NewContext r u0 = Ret c u ->
    Then (New (watch_from 0 [Some A; B])) (watch_fn fn) w r
      {| trace := tr; world := u0 |}
    = Ret tt {| trace := tr ++ [EvStep 0]; world := uA |}.
Proof.
  intros HA He.
  assert (H1 : call (chain [Some A; B]) c w r u = Ret (Some cv) uA).
  { rewrite call_chain_composed.
    eapply composed_first_failure with (k := 0) (m := A) (ck := c) (sk := u);
      [reflexivity | reflexivity | exact HA | exact He]. }
  assert (H2 : call (chain (watch_from 0 [Some A; B])) c w r
                 {| trace := tr; world := u |}
               = Ret (Some cv) {| trace := tr ++ [EvStep 0]; world := uA |}).
  { rewrite call_chain_composed.
    eapply observed_first_failure with (k := 0) (m := A) (ck := c) (uk := u);
      [reflexivity | reflexivity | exact HA | exact He]. }
  split; [|split; [|split; [|split]]].
  - exact H1.
  - unfold Run. cbn [fns New]. rewrite (bind_Ret _ H1). reflexivity.
  - exact H2.
  - unfold Run. cbn [fns New]. rewrite (bind_Ret _ H2). reflexivity.
  - intros fn u0 Hnew. rewrite call_chain_composed in H2.
    eapply Then_failed; [apply lift_Ret, Hnew | exact H2 | exact He].
Qed.

End RunStops.

Lemma run_stops_at_failure_witness :
  call (chain (host := Demo.live_host) [Some (Demo.abort 1); Some (Demo.tag 2)])
       None tt tt []
  = Ret (Some (Demo.Cancelled 1)) [] /\
  Run (host := Demo.live_host) (New [Some (Demo.abort 1); Some (Demo.tag 2)])
      None tt tt []
  = Ret tt [] /\
  call (chain (host := observed_host (h := Demo.live_host))
          (watch_from 0 [Some (Demo.abort 1); Some (Demo.tag 2)]))
       None tt tt {| trace := []; world := [] |}
  = Ret (Some (Demo.Cancelled 1)) {| trace := [] ++ [EvStep 0]; world := [] |} /\
  Run (host := observed_host (h := Demo.live_host))
      (New (watch_from 0 [Some (Demo.abort 1); Some (Demo.tag 2)]))
      None tt tt {| trace := []; world := [] |}
  = Ret tt {| trace := [] ++ [EvStep 0]; world := [] |}.
Proof.
  destruct (run_stops_at_failure (host := Demo.live_host)
              (Demo.abort 1) (Some (Demo.tag 2)) None tt tt [] []
              (cv := Demo.Cancelled 1) (e := "context canceled"%string)
              (uA := []) eq_refl eq_refl)
    as (H1 & H2 & H3 & H4 & _).
  exact (conj H1 (conj H2 (conj H3 H4))).
Defined.

(** C4 as stated fails: [Run] does not return the Context of [A].  Two
    chains whose first steps fail with different Contexts give the same
    outcome of [Run], so nothing computed from what [Run] returns can be
    the failed Context. *)
Lemma Run_returns_no_Context :
  ~ exists result : outcome (list nat) unit -> option Demo.ctx,
      forall (A : Demo.step) (cv : Demo.ctx),
        A None tt tt [] = Ret (Some cv) [] ->
        Demo.err cv [] <> None ->
        result (Run (host := Demo.live_host)
                  (New [Some A; Some (Demo.tag 2)]) None tt tt [])
        = Some cv.
Proof.
  intros [result H].
  assert (H1 := H (Demo.abort 1) (Demo.Cancelled 1) eq_refl).
  assert (H2 := H (Demo.abort 2) (Demo.Cancelled 2) eq_refl).
  cbv in H1, H2.
  assert (E1 : result (Ret tt []) = Some (Demo.Cancelled 1))
    by (apply H1; discriminate).
  assert (E2 : result (Ret tt []) = Some (Demo.Cancelled 2))
    by (apply H2; discriminate).
  rewrite E1 in E2. discriminate.
Qed.

(** ** The first step *)

Section FirstStep.

Variables U CtxV Error Sink Request : Type.
Context {host : Host U CtxV Error Request}.

Local Notation Middleware := (Middleware U CtxV Sink Request).

(** C5.  The step at position 0 is run on whatever Context [Run] is given,
    nil or already failed: [Run] begins with [m c w r], no check of [c]
    before it, and the only checks are those made on the Contexts the steps
    return.  In an observed run the record therefore always continues with
    position 0, whatever happens afterwards. *)
Theorem first_step_unconditional
  (m : Context CtxV -> Sink -> Request -> M U (Context CtxV))
  (rest : list Middleware)
  (c : Context CtxV) (w : Sink) (r : Request) (u : U) (tr : list event) :
  Run (New (Some m :: rest)) c w r u
  = (c1 <- m c w r ;;
     _ <- (e <- Err c1 ;;
           match e with
           | Some _ => ret c1
           | None => call (chain rest) c1 w r
           end) ;;
     ret tt) u /\
  exists tr',
    trace (final (Run (New (watch_from 0 (Some m :: rest))) c w r
                    {| trace := tr; world := u |}))
    = tr ++ EvStep 0 :: tr'.
Proof.
  split.
  - rewrite Run_composed. cbn [fns New composed call].
    rewrite bind_assoc. apply bind_ext; intros c1 u1.
    unfold bind. destruct (Err c1 u1) as [[e|] u2|]; try reflexivity.
    rewrite call_chain_composed. reflexivity.
  - rewrite final_Run. cbn [fns New watch_from watch composed call].
    unfold spy. unfold bind at 1. unfold lift at 1. cbn [trace world].
    destruct (m c w r u) as [[cv|] u1|].
    + cbn [Err]. unfold bind at 1. cbn [ctx_err observed_host world].
      destruct (ctx_err cv u1).
      * exists []. reflexivity.
      * destruct (composed_trace rest 1 (Some cv) w r
                    {| trace := tr ++ [EvStep 0]; world := u1 |}) as (n & _ & E).
        exists (map EvStep (seq 1 n)).
        rewrite E. cbn [trace]. rewrite <- app_assoc. reflexivity.
    + exists []. reflexivity.
    + exists []. reflexivity.
Qed.

End FirstStep.

(** ** Nesting handlers *)

Section Nesting.

Variables U CtxV Error Sink Request : Type.
Context {host : Host U CtxV Error Request}.

Local Notation Middleware := (Middleware U CtxV Sink Request).

Implicit Types (a b : Middleware) (fn : HandlerFunc U CtxV Sink Request).
Implicit Types (c : Context CtxV) (w : Sink) (r : Request) (u : U).

(** Composition is associative where the Context is threaded: a chain
    followed by a terminal unit is its first step followed by the rest of
    the chain and the terminal unit, run on the Context the first step
    returned. *)
Lemma Then_run_then a (rest : list Middleware) fn w r u :
  Then (New (a :: rest)) fn w r u
  = Then (New [a]) (run_then rest fn) w r u.
Proof.
  rewrite !Then_composed. cbn [fns New composed run_then call_fn].
  apply bind_ext; intros c0 u0.
  unfold bind, ret.
  destruct (call a c0 w r u0) as [[cv|] ua|]; try reflexivity.
  cbn [Err]. destruct (ctx_err cv ua) eqn:He.
  - cbn [Err]. rewrite He. reflexivity.
  - cbn [Err]. rewrite He. rewrite call_chain_composed. reflexivity.
Qed.

(** The handler [Then (New [b]) fn] takes no Context: used as the terminal
    unit of [New [a]] it drops the Context that [a] returned and derives a
    fresh one from the request. *)
Lemma Then_nested a b fn w r u :
  (forall c0 u0 ca ua,
     NewContext r u = Ret c0 u0 ->
     call a c0 w r u0 = Ret ca ua ->
     NewContext r ua = Ret ca ua) ->
  Then (New [a; b]) fn w r u
  = Then (New [a]) (as_HandlerFunc (Then (New [b]) fn)) w r u.
Proof.
  intros Hfresh. rewrite Then_run_then.
  rewrite !Then_composed. cbn [fns New composed run_then as_HandlerFunc call_fn].
  destruct (NewContext r u) as [c0 u0|] eqn:Hnew;
    [rewrite !(bind_Ret _ Hnew) | rewrite !(bind_Panic _ Hnew); reflexivity].
  unfold bind, ret.
  destruct (call a c0 w r u0) as [[cv|] ua|] eqn:Ha; try reflexivity.
  specialize (Hfresh _ _ _ _ eq_refl Ha).
  cbn [Err]. destruct (ctx_err cv ua) eqn:He.
  - cbn [Err]. rewrite He. reflexivity.
  - cbn [Err]. rewrite He.
    rewrite Then_composed. cbn [fns New].
    rewrite (bind_Ret _ Hfresh).
    unfold bind, ret. rewrite call_chain_composed. reflexivity.
Qed.

(** C7, as amended.  Composition is associative where the Context is
    threaded: the chain [a, b] followed by [fn] behaves as [a] followed by
    the terminal unit that runs [b] and then [fn] on the Context it is
    handed, whether or not a step short-circuits.  With the handler
    [Then (New [b]) fn] itself as the terminal unit, which derives a fresh
    Context from the request instead, the two behave identically whenever
    deriving a Context afresh, in the world [a] left, gives back the Context
    [a] returned and leaves that world alone. *)
Theorem then_nesting a b fn w r u :
  Then (New [a; b]) fn w r u = Then (New [a]) (run_then [b] fn) w r u /\
  ((forall c0 u0 ca ua,
      NewContext r u = Ret c0 u0 ->
      call a c0 w r u0 = Ret ca ua ->
      NewContext r ua = Ret ca ua) ->
   Then (New [a; b]) fn w r u
   = Then (New [a]) (as_HandlerFunc (Then (New [b]) fn)) w r u).
Proof.
  split; [apply Then_run_then | apply Then_nested].
Qed.

End Nesting.

Lemma then_nesting_witness :
  Then (host := Demo.live_host)
       (New [Some Demo.pass; Some (Demo.tag 5)]) (Some Demo.record) tt tt []
  = Then (host := Demo.live_host) (New [Some Demo.pass])
      (as_HandlerFunc
         (Then (host := Demo.live_host) (New [Some (Demo.tag 5)])
            (Some Demo.record)))
      tt tt [].
Proof.
  apply (proj2 (then_nesting (host := Demo.live_host)
                  (Some Demo.pass) (Some (Demo.tag 5)) (Some Demo.record)
                  tt tt [])).
  intros c0 u0 ca ua H1 H2. cbv in H1, H2.
  injection H1 as <- <-. injection H2 as <- <-. reflexivity.
Defined.

(** C7 as stated fails.  No step signals failure, yet the chain [a, b]
    followed by the terminal unit hands it the Context that [a] made, and
    the nested handlers hand it a freshly derived one. *)
Lemma then_nesting_drops_context :
  pass_all (host := Demo.live_host) [Some (Demo.tag 1); Some Demo.pass]
    (Some (Demo.Live 0)) tt tt []
  = Some (Some (Demo.Live 1), []) /\
  Then (host := Demo.live_host)
       (New [Some (Demo.tag 1); Some Demo.pass]) (Some Demo.record) tt tt []
  = Ret tt [1] /\
  Then (host := Demo.live_host) (New [Some (Demo.tag 1)])
    (as_HandlerFunc
       (Then (host := Demo.live_host) (New [Some Demo.pass]) (Some Demo.record)))
    tt tt []
  = Ret tt [0] /\
  Then (host := Demo.live_host)
       (New [Some (Demo.tag 1); Some Demo.pass]) (Some Demo.record) tt tt []
  <> Then (host := Demo.live_host) (New [Some (Demo.tag 1)])
       (as_HandlerFunc
          (Then (host := Demo.live_host) (New [Some Demo.pass]) (Some Demo.record)))
       tt tt [].
Proof.
  repeat split. cbv. discriminate.
Qed.

(** ** Then and Handle *)

Section ThenHandle.

Variables State CtxV Error Sink Request : Type.
Context {host : Host State CtxV Error Request}.

(** C8.  For a plain function [f] and the handler object whose [ServeHTTP]
    is [f], the handler returned by [Then] and the [ServeHTTP] of the object
    returned by [Handle] have the same outcome on every response writer,
    request and world: the same steps run, the same check is made, the same
    terminal unit is invoked.  The world is arbitrary, so this holds of
    observed runs as well.  The two also agree when function and handler are
    both nil. *)
Theorem then_handle_agree
  (q : Q State CtxV Sink Request)
  (f : Context CtxV -> Sink -> Request -> M State unit)
  (w : Sink) (r : Request) (s : State) :
  Then q (Some f) w r s
  = handler_ServeHTTP (Handle q (Some {| ServeHTTP := f |})) w r s /\
  Then q None w r s = handler_ServeHTTP (Handle q None) w r s.
Proof. split; reflexivity. Qed.

End ThenHandle.

(** ** Handlers are snapshots *)

Section Snapshot.

Variables U CtxV Error Sink Request : Type.
Context {host : Host U CtxV Error Request}.

Local Notation Middleware := (Middleware U CtxV Sink Request).

Implicit Types (bodies extra : list Middleware) (w : Sink) (r : Request).
Implicit Types (s : observed U).

Lemma quiet_watch_fn (fn : HandlerFunc U CtxV Sink Request) w r :
  quiet (fun c => call_fn (watch_fn fn) c w r).
Proof.
  intros c s. destruct fn as [g|]; cbn [watch_fn call_fn].
  - right. unfold spy. rewrite trace_final_lift. reflexivity.
  - left. reflexivity.
Qed.

Lemma quiet_watch_handler (hd : Handler U CtxV Sink Request) w r :
  quiet (fun c => serve (watch_handler hd) c w r).
Proof.
  intros c s. destruct hd as [o|]; cbn [watch_handler serve ServeHTTP].
  - right. unfold spy. rewrite trace_final_lift. reflexivity.
  - left. reflexivity.
Qed.



End Snapshot.

(** ** Nil Contexts *)

Section NilSafety.

Variables State CtxV Error Sink Request : Type.
Context {host : Host State CtxV Error Request}.

Local Notation Middleware := (Middleware State CtxV Sink Request).

Implicit Types (fns : list Middleware).
Implicit Types (c : Context CtxV) (w : Sink) (r : Request) (s : State).

(** When every step returns a non-nil Context, so does the composed
    function of a non-empty sequence, without fault. *)
Lemma composed_returns fns c w r s :
  Forall (returns_non_nil w r) fns ->
  exists c' s', composed fns c w r s = Ret c' s' /\ (fns <> [] -> c' <> None).
Proof.
  intros Hall. revert c s.
  induction Hall as [|f fns (m & -> & Hm) Hall IH]; intros c s.
  - exists c, s. split; [reflexivity | congruence].
  - cbn [composed call].
    destruct (Hm c s) as (cv & s1 & E). rewrite (bind_Ret _ E).
    cbn [Err]. unfold bind at 1.
    destruct (ctx_err cv s1).
    + exists (Some cv), s1. split; [reflexivity | discriminate].
    + destruct (IH (Some cv) s1) as (c' & s' & E' & Hc').
      exists c', s'. split; [exact E'|]. intros _.
      destruct fns as [|g fns].
      * cbn in E'. injection E' as <- _. discriminate.
      * apply Hc'. discriminate.
Qed.

(** C10.  If every step of the chain returns a non-nil Context, the composed
    chain returns without fault, whatever it is run on: no check
    dereferences nil; and unless the chain is empty the Context it returns
    is non-nil too, so that the check [Then] and [ServeHTTP] make on it is
    safe as well.  Without the precondition: if the steps before position
    [k] pass and the step at [k] returns the nil Context, the check made
    after that step is a nil dereference, in the world that step left. *)
Theorem chain_nil_safety fns c w r s :
  (Forall (returns_non_nil w r) fns ->
   exists c' s', call (chain fns) c w r s = Ret c' s' /\
                 (fns <> [] -> c' <> None)) /\
  (forall k m ck sk s',
     pass_all (firstn k fns) c w r s = Some (ck, sk) ->
     nth_error fns k = Some (Some m) ->
     m ck w r sk = Ret None s' ->
     call (chain fns) c w r s = Panic nil_dereference s').
Proof.
  split.
  - intros Hall. rewrite call_chain_composed. apply composed_returns, Hall.
  - intros k m ck sk s' Hpre Hk Hm. rewrite call_chain_composed.
    eapply composed_nil_return; eassumption.
Qed.

End NilSafety.

Lemma chain_nil_safety_witness :
  (exists c' s',
     call (chain (host := Demo.live_host) [Some (Demo.tag 1); Some (Demo.tag 2)])
          None tt tt []
     = Ret c' s' /\
     ([Some (Demo.tag 1); Some (Demo.tag 2)] <> [] -> c' <> None)) /\
  call (chain (host := Demo.live_host)
          [Some (Demo.tag 1); Some Demo.drop; Some (Demo.tag 3)])
       None tt tt []
  = Panic nil_dereference [].
Proof.
  split.
  - apply (chain_nil_safety (host := Demo.live_host)
             [Some (Demo.tag 1); Some (Demo.tag 2)] None tt tt []).
    repeat constructor.
    + exists (Demo.tag 1). split; [reflexivity|].
      intros c s. exists (Demo.Live 1), s. reflexivity.
    + exists (Demo.tag 2). split; [reflexivity|].
      intros c s. exists (Demo.Live 2), s. reflexivity.
  - apply (proj2 (chain_nil_safety (host := Demo.live_host)
                    [Some (Demo.tag 1); Some Demo.drop; Some (Demo.tag 3)]
                    None tt tt []))
      with (k := 1) (m := Demo.drop) (ck := Some (Demo.Live 1)) (sk := []);
      reflexivity.
Defined.

(** * Further properties of the composition *)

(** ** What the composed function returns *)

Section Results.

Variables State CtxV Error Sink Request : Type.
Context {host : Host State CtxV Error Request}.

Local Notation Middleware := (Middleware State CtxV Sink Request).

Implicit Types (fns xs ys : list Middleware) (a next : Middleware).
Implicit Types (c : Context CtxV) (w : Sink) (r : Request) (s : State).

Lemma chain_is_Some fns : exists g, chain fns = Some g.
Proof.
  destruct fns as [|f fns].
  - eexists. reflexivity.
  - rewrite chain_cons. unfold link. eexists. reflexivity.
Qed.

(** A Context that comes back without failure has gone through every
    step. *)
Lemma composed_passed_only fns c w r s cv s' :
  composed fns c w r s = Ret (Some cv) s' ->
  ctx_err cv s' = None ->
  pass_all fns c w r s = Some (Some cv, s').
Proof.
  revert c s. induction fns as [|[m|] fns IH]; intros c s H He.
  - cbn in H. injection H as -> ->. reflexivity.
  - cbn [composed call] in H. cbn [pass_all]. unfold bind in H.
    destruct (m c w r s) as [[cv1|] s1|]; try discriminate.
    cbn [Err] in H. destruct (ctx_err cv1 s1) eqn:E1.
    + cbn in H. injection H as -> ->. congruence.
    + apply IH; assumption.
  - discriminate.
Qed.

Lemma composed_not_nil fns c w r s c' s' :
  fns <> [] ->
  composed fns c w r s = Ret c' s' ->
  c' <> None.
Proof.
  revert c s. induction fns as [|f fns IH]; intros c s Hne H; [congruence|].
  cbn [composed] in H. unfold bind in H.
  destruct (call f c w r s) as [[cv1|] s1|]; try discriminate.
  cbn [Err] in H. destruct (ctx_err cv1 s1).
  - cbn in H. injection H as <- _. discriminate.
  - destruct fns as [|g fns].
    + cbn in H. injection H as <- _. discriminate.
    + apply (IH (Some cv1) s1); [discriminate | exact H].
Qed.

(** A nil function in the sequence, and a step that panics. *)
Lemma composed_nil_step fns k c w r s ck sk :
  pass_all (firstn k fns) c w r s = Some (ck, sk) ->
  nth_error fns k = Some None ->
  composed fns c w r s = Panic nil_dereference sk.
Proof.
  intros Hpre Hk.
  rewrite nth_error_split_at with (1 := Hk).
  rewrite composed_pass_all with (1 := Hpre). reflexivity.
Qed.

Lemma composed_step_panic fns k m c w r s ck sk p s' :
  pass_all (firstn k fns) c w r s = Some (ck, sk) ->
  nth_error fns k = Some (Some m) ->
  m ck w r sk = Panic p s' ->
  composed fns c w r s = Panic p s'.
Proof.
  intros Hpre Hk Hm.
  rewrite nth_error_split_at with (1 := Hk).
  rewrite composed_pass_all with (1 := Hpre).
  cbn [composed call]. rewrite (bind_Panic _ Hm). reflexivity.
Qed.

(** The composed function of [xs ++ ys], for a non-empty [xs], is that of
    [xs] followed, unless its Context has failed, by that of [ys]. *)
Lemma composed_app xs ys c w r s :
  xs <> [] ->
  composed (xs ++ ys) c w r s
  = (c1 <- composed xs c w r ;;
     e <- Err c1 ;;
     match e with
     | Some _ => ret c1
     | None => composed ys c1 w r
     end) s.
Proof.
  revert c s. induction xs as [|f xs IH]; intros c s Hne; [congruence|].
  destruct xs as [|g xs].
  - cbn [app composed]. unfold bind, ret.
    destruct (call f c w r s) as [[cv1|] s1|]; try reflexivity.
    cbn [Err]. destruct (ctx_err cv1 s1) eqn:E1; cbn [Err]; rewrite E1; reflexivity.
  - remember (g :: xs) as gx eqn:Egx.
    assert (Hgx : gx <> []) by (subst gx; discriminate).
    change ((f :: gx) ++ ys) with (f :: (gx ++ ys)). cbn [composed].
    unfold bind, ret.
    destruct (call f c w r s) as [[cv1|] s1|]; try reflexivity.
    cbn [Err]. destruct (ctx_err cv1 s1) eqn:E1.
    + cbn [Err]. rewrite E1. reflexivity.
    + rewrite (IH (Some cv1) s1 Hgx). reflexivity.
Qed.

End Results.

Section ObservedResults.

Variables U CtxV Error Sink Request : Type.
Context {host : Host U CtxV Error Request}.

Local Notation Middleware := (Middleware U CtxV Sink Request).

Implicit Types (bodies : list Middleware) (tr : list event) (u : U).
Implicit Types (c : Context CtxV) (w : Sink) (r : Request) (s : observed U).

(** Observed steps that all pass have all been recorded. *)
Lemma pass_all_watch_trace bodies i c w r s c' s' :
  pass_all (watch_from i bodies) c w r s = Some (c', s') ->
  trace s' = trace s ++ map EvStep (seq i (length bodies)).
Proof.
  revert i c s. induction bodies as [|[m|] bodies IH]; intros i c s H.
  - cbn in H. injection H as _ <-. cbn. rewrite app_nil_r. reflexivity.
  - cbn [watch_from watch pass_all] in H. unfold spy, lift in H.
    cbn [trace world] in H.
    destruct (m c w r (world s)) as [[cv|] u1|]; try discriminate.
    cbn [ctx_err observed_host world] in H.
    destruct (ctx_err cv u1); try discriminate.
    apply IH in H. rewrite H. cbn [trace length seq map].
    rewrite <- app_assoc. reflexivity.
  - discriminate.
Qed.

(** The observed run of a prefix that passes. *)
Lemma observed_prefix bodies k c w r tr u ck uk :
  k < length bodies ->
  pass_all (firstn k bodies) c w r u = Some (ck, uk) ->
  pass_all (firstn k (watch_from 0 bodies)) c w r {| trace := tr; world := u |}
  = Some (ck, {| trace := tr ++ map EvStep (seq 0 k); world := uk |}).
Proof.
  intros Hk Hpre. rewrite firstn_watch_from.
  rewrite pass_all_watch with (1 := Hpre).
  rewrite length_firstn, Nat.min_l by lia. reflexivity.
Qed.

(** What a handler over observed steps records, and when it reaches the
    terminal unit. *)
Lemma handler_trace_full bodies (k : Context CtxV -> M (observed U) unit) w r s :
  quiet k ->
  exists n t, n <= length bodies /\
    (t = [] \/ (t = [EvTerminal] /\ n = length bodies)) /\
    trace (final ((c <- NewContext r ;;
                   c <- composed (watch_from 0 bodies) c w r ;;
                   e <- Err c ;;
                   match e with
                   | None => k c
                   | Some _ => ret tt
                   end) s))
    = trace s ++ map EvStep (seq 0 n) ++ t.
Proof.
  intros Hk. unfold bind at 1.
  unfold NewContext. cbn [new_context observed_host]. unfold lift at 1.
  destruct (new_context r (world s)) as [c0 u0|].
  2:{ exists 0, []. split; [lia|]. split; [now left|].
      cbn. rewrite app_nil_r. reflexivity. }
  destruct (composed_trace bodies 0 c0 w r {| trace := trace s; world := u0 |})
    as (n & Hn & E).
  cbn [trace] in E. unfold bind at 1.
  destruct (composed (watch_from 0 bodies) c0 w r
              {| trace := trace s; world := u0 |}) as [c1 s1|p s1] eqn:Hrun;
    cbn [final] in E.
  2:{ exists n, []. split; [exact Hn|]. split; [now left|].
      cbn [final]. rewrite app_nil_r. exact E. }
  destruct c1 as [cv|].
  2:{ exists n, []. split; [exact Hn|]. split; [now left|].
      cbn. rewrite app_nil_r. exact E. }
  cbn [Err]. unfold bind at 1.
  destruct (ctx_err cv s1) eqn:He.
  { exists n, []. split; [exact Hn|]. split; [now left|].
    cbn. rewrite app_nil_r. exact E. }
  apply composed_passed_only in Hrun; [|exact He].
  apply pass_all_watch_trace in Hrun. cbn [trace] in Hrun.
  destruct (Hk (Some cv) s1) as [Ht|Ht]; rewrite Ht, Hrun.
  - exists (length bodies), []. split; [lia|]. split; [now left|].
    rewrite app_nil_r. reflexivity.
  - exists (length bodies), [EvTerminal]. split; [lia|]. split; [now right|].
    rewrite <- app_assoc. reflexivity.
Qed.

Lemma terminal_in_segment bodies (n : nat) (t : list event) :
  (t = [] \/ (t = [EvTerminal] /\ n = length bodies)) ->
  In EvTerminal (map EvStep (seq 0 n) ++ t) ->
  map EvStep (seq 0 n) ++ t
  = map EvStep (seq 0 (length bodies)) ++ [EvTerminal].
Proof.
  intros Ht Hin. apply in_app_or in Hin. destruct Hin as [Hin|Hin].
  - apply in_map_iff in Hin. destruct Hin as (x & Hx & _). discriminate.
  - destruct Ht as [-> | [-> ->]]; [destruct Hin | reflexivity].
Qed.

End ObservedResults.

(** ** Faults *)

Section Faults.

Variables U CtxV Error Sink Request : Type.
Context {host : Host U CtxV Error Request}.

Local Notation Middleware := (Middleware U CtxV Sink Request).

Implicit Types (bodies : list Middleware) (tr : list event) (u : U).
Implicit Types (c : Context CtxV) (w : Sink) (r : Request).

(** X1.  [chain] never returns the nil function, whatever sequence it is
    given: empty, or with nil entries.  So the composed function [Run] and
    the handlers call is always callable, and the [mw] of a [handler] built
    by [Handle] is never nil. *)
Theorem chain_never_nil bodies
  (q : Q U CtxV Sink Request) (h : Handler U CtxV Sink Request) :
  chain bodies <> None /\ mw (Handle q h) <> None.
Proof.
  split.
  - destruct (chain_is_Some bodies) as [g ->]. discriminate.
  - cbn [Handle mw]. destruct (chain_is_Some (fns q)) as [g ->]. discriminate.
Qed.

(** X2.  A nil function in the sequence is accepted when the chain is
    built and faults when its turn comes: if the steps before position [k]
    pass and the entry at [k] is nil, the composed chain panics with a nil
    dereference in the world the step before left.  In an observed run the
    record holds positions [0..k-1]: the steps before ran, nothing after. *)
Theorem nil_step_panics bodies (k : nat) c w r u tr
  (ck : Context CtxV) (uk : U) :
  pass_all (firstn k bodies) c w r u = Some (ck, uk) ->
  nth_error bodies k = Some None ->
  call (chain bodies) c w r u = Panic nil_dereference uk /\
  call (chain (watch_from 0 bodies)) c w r {| trace := tr; world := u |}
  = Panic nil_dereference {| trace := tr ++ map EvStep (seq 0 k); world := uk |}.
Proof.
  intros Hpre Hk.
  assert (Hlen : k < length bodies) by (apply nth_error_Some; congruence).
  split; rewrite call_chain_composed.
  - eapply composed_nil_step; eassumption.
  - eapply composed_nil_step with (k := k).
    + apply observed_prefix; eassumption.
    + rewrite nth_error_watch_from with (1 := Hk). reflexivity.
Qed.

(** X3.  Nothing recovers a panic.  If the steps before position [k] pass
    and step [k] panics, the composed chain, [Run], and a handler obtained
    from [Then] that runs the chain on [c] as its fresh Context all panic
    with the same value, in the world step [k] left; in an observed run the
    record holds positions [0..k], so no later step and no terminal unit
    ran. *)
Theorem step_panic_propagates bodies (k : nat)
  (m : Context CtxV -> Sink -> Request -> M U (Context CtxV))
  c w r u tr (ck : Context CtxV) (uk : U) (p : panic) (u' : U) :
  pass_all (firstn k bodies) c w r u = Some (ck, uk) ->
  nth_error bodies k = Some (Some m) ->
  m ck w r uk = Panic p u' ->
  call (chain bodies) c w r u = Panic p u' /\
  Run (New bodies) c w r u = Panic p u' /\
  call (chain (watch_from 0 bodies)) c w r {| trace := tr; world := u |}
  = Panic p {| trace := tr ++ map EvStep (seq 0 (S k)); world := u' |} /\
  forall (fn : HandlerFunc U CtxV Sink Request) (u0 : U),
    NewContext r u0 = Ret c u ->
    Then (New bodies) fn w r u0 = Panic p u' /\
    Then (New (watch_from 0 bodies)) (watch_fn fn) w r
      {| trace := tr; world := u0 |}
    = Panic p {| trace := tr ++ map EvStep (seq 0 (S k)); world := u' |}.
Proof.
  intros Hpre Hk Hm.
  assert (Hlen : k < length bodies) by (apply nth_error_Some; congruence).
  assert (H1 : composed bodies c w r u = Panic p u')
    by (eapply composed_step_panic; eassumption).
  assert (H2 : composed (watch_from 0 bodies) c w r {| trace := tr; world := u |}
               = Panic p {| trace := tr ++ map EvStep (seq 0 (S k)); world := u' |}).
  { eapply composed_step_panic with (k := k).
    - apply observed_prefix; eassumption.
    - rewrite nth_error_watch_from with (1 := Hk). reflexivity.
    - unfold spy. cbn [trace world].
      rewrite seq_S, map_app, app_assoc. apply lift_Panic, Hm. }
  split; [|split; [|split]].
  - rewrite call_chain_composed. exact H1.
  - rewrite Run_composed. cbn [fns New]. rewrite (bind_Panic _ H1). reflexivity.
  - rewrite call_chain_composed. exact H2.
  - intros fn u0 Hnew. split.
    + rewrite Then_composed, (bind_Ret _ Hnew). cbn [fns New].
      rewrite (bind_Panic _ H1). reflexivity.
    + assert (Hn : NewContext (State := observed U) r {| trace := tr; world := u0 |}
                   = Ret c {| trace := tr; world := u |})
        by (apply lift_Ret, Hnew).
      rewrite Then_composed, (bind_Ret _ Hn). cbn [fns New].
      rewrite (bind_Panic _ H2). reflexivity.
Qed.

(** X11.  A nil terminal function, or a nil handler, is accepted by [Then]
    and [Handle]; the fault comes only on a request that gets through the
    whole chain.  If every step passes and the Context at the end carries no
    failure, the handler panics with a nil dereference in the world the last
    step left, after every step has run. *)
Theorem nil_terminal_panics_late bodies w r u tr
  (c0 : Context CtxV) (u0 : U) (cv : CtxV) (un : U) :
  NewContext r u = Ret c0 u0 ->
  pass_all bodies c0 w r u0 = Some (Some cv, un) ->
  ctx_err cv un = None ->
  Then (New bodies) None w r u = Panic nil_dereference un /\
  handler_ServeHTTP (Handle (New bodies) None) w r u = Panic nil_dereference un /\
  Then (New (watch_from 0 bodies)) None w r {| trace := tr; world := u |}
  = Panic nil_dereference
      {| trace := tr ++ map EvStep (seq 0 (length bodies)); world := un |}.
Proof.
  intros Hnew Hall He. split; [|split].
  - rewrite Then_composed, (bind_Ret _ Hnew). cbn [fns New].
    rewrite (bind_Ret _ (composed_all_pass Hall)).
    cbn [Err]. unfold bind. rewrite He. reflexivity.
  - rewrite ServeHTTP_composed, (bind_Ret _ Hnew). cbn [fns New].
    rewrite (bind_Ret _ (composed_all_pass Hall)).
    cbn [Err]. unfold bind. rewrite He. reflexivity.
  - assert (Hn : NewContext (State := observed U) r {| trace := tr; world := u |}
                 = Ret c0 {| trace := tr; world := u0 |})
      by (apply lift_Ret, Hnew).
    rewrite Then_composed, (bind_Ret _ Hn). cbn [fns New].
    assert (Hw : pass_all (watch_from 0 bodies) c0 w r {| trace := tr; world := u0 |}
                 = Some (Some cv, {| trace := tr ++ map EvStep (seq 0 (length bodies));
                                     world := un |}))
      by (apply pass_all_watch, Hall).
    rewrite (bind_Ret _ (composed_all_pass Hw)).
    cbn [Err]. unfold bind. cbn [ctx_err observed_host world].
    rewrite He. reflexivity.
Qed.

End Faults.

(** ** Order of execution *)

Section Order.

Variables U CtxV Error Sink Request : Type.
Context {host : Host U CtxV Error Request}.

Local Notation Middleware := (Middleware U CtxV Sink Request).

Implicit Types (bodies : list Middleware) (tr : list event) (u : U).
Implicit Types (c : Context CtxV) (w : Sink) (r : Request).

(** X4.  Steps run strictly in order, each at most once and none skipped:
    however an observed run of the composed chain or of [Run] ends (all
    steps passed, a step failed, returned nil or panicked, an entry was
    nil), what it added to the record is positions [0..n-1] for some [n] up
    to the length of the sequence. *)
Theorem steps_run_in_order bodies c w r (s : observed U) :
  exists n, n <= length bodies /\
    trace (final (call (chain (watch_from 0 bodies)) c w r s))
    = trace s ++ map EvStep (seq 0 n) /\
    trace (final (Run (New (watch_from 0 bodies)) c w r s))
    = trace s ++ map EvStep (seq 0 n).
Proof.
  destruct (composed_trace bodies 0 c w r s) as (n & Hn & E).
  exists n. split; [exact Hn|]. split.
  - rewrite call_chain_composed. exact E.
  - rewrite final_Run. exact E.
Qed.

(** X6.  The terminal unit is reached only through the whole chain: in an
    observed run of a handler obtained from [Then] or [Handle], if the
    terminal unit appears among what the run recorded, then what it
    recorded is every position of the sequence, once and in order, and then
    the terminal unit. *)
Theorem terminal_only_after_all_steps bodies
  (fn : HandlerFunc U CtxV Sink Request) (hd : Handler U CtxV Sink Request)
  w r u tr :
  let q := New (watch_from 0 bodies) in
  let s := {| trace := tr; world := u |} in
  (exists evs,
     trace (final (Then q (watch_fn fn) w r s)) = tr ++ evs /\
     (In EvTerminal evs ->
      evs = map EvStep (seq 0 (length bodies)) ++ [EvTerminal])) /\
  (exists evs,
     trace (final (handler_ServeHTTP (Handle q (watch_handler hd)) w r s))
     = tr ++ evs /\
     (In EvTerminal evs ->
      evs = map EvStep (seq 0 (length bodies)) ++ [EvTerminal])).
Proof.
  intros q s. split.
  - subst q. rewrite Then_composed. cbn [fns New].
    destruct (handler_trace_full bodies w r s (quiet_watch_fn fn w r))
      as (n & t & Hn & Ht & E).
    exists (map EvStep (seq 0 n) ++ t). split; [exact E|].
    apply terminal_in_segment, Ht.
  - subst q. rewrite ServeHTTP_composed. cbn [fns New].
    destruct (handler_trace_full bodies w r s (quiet_watch_handler hd w r))
      as (n & t & Hn & Ht & E).
    exists (map EvStep (seq 0 n) ++ t). split; [exact E|].
    apply terminal_in_segment, Ht.
Qed.

End Order.

(** ** Results and composition *)

Section Laws.

Variables State CtxV Error Sink Request : Type.
Context {host : Host State CtxV Error Request}.

Local Notation Middleware := (Middleware State CtxV Sink Request).

Implicit Types (fns xs ys : list Middleware) (a next : Middleware).
Implicit Types (c : Context CtxV) (w : Sink) (r : Request) (s : State).

(** X5.  The composed chain returns a Context that carries no failure only
    when every step has run and passed: each was a non-nil function that
    returned a non-nil Context without failure, run on the Context of the
    step before, and the Context returned is that of the last step (the
    one handed in, for the empty chain). *)
Theorem unfailed_result_means_all_passed fns c w r s (cv : CtxV) (s' : State) :
  call (chain fns) c w r s = Ret (Some cv) s' ->
  ctx_err cv s' = None ->
  pass_all fns c w r s = Some (Some cv, s').
Proof.
  intros H He. rewrite call_chain_composed in H.
  apply composed_passed_only; assumption.
Qed.

(** X7.  The composed function of a non-empty sequence never returns the
    nil Context: every Context a step returns is checked, so a nil one ends
    the run in a panic.  The check [Then] and [ServeHTTP] make on the
    result is therefore never the first to meet a nil Context. *)
Theorem nonempty_chain_result_not_nil fns c w r s (c' : Context CtxV) (s' : State) :
  fns <> [] ->
  call (chain fns) c w r s = Ret c' s' ->
  c' <> None.
Proof.
  intros Hne H. rewrite call_chain_composed in H.
  eapply composed_not_nil; eassumption.
Qed.

(** X8.  Steps that pass hand over to the rest of the chain: if the steps
    [xs] all pass from [c] and [s], ending with Context [ck] in world [sk],
    then the chain of [xs ++ ys] run on [c] in [s] is the chain of [ys] run
    on [ck] in [sk]. *)
Theorem passing_prefix_hands_over xs ys c w r s (ck : Context CtxV) (sk : State) :
  pass_all xs c w r s = Some (ck, sk) ->
  call (chain (xs ++ ys)) c w r s = call (chain ys) ck w r sk.
Proof.
  intros H. rewrite !call_chain_composed.
  apply composed_pass_all, H.
Qed.

(** X9.  [link] is associative on its behaviour, provided the middle
    function is not nil: linking [a] to [b] and the result to [next] runs
    as linking [a] to the link of [b] and [next], on every input.  (With a
    nil [b] the left side skips it and the right side faults on calling
    it.) *)
Theorem link_assoc a
  (b : Context CtxV -> Sink -> Request -> M State (Context CtxV)) next c w r s :
  call (link (link a (Some b)) next) c w r s
  = call (link a (link (Some b) next)) c w r s.
Proof.
  rewrite !call_link. cbn [call link].
  unfold bind, ret.
  destruct (call a c w r s) as [[cv|] s1|]; try reflexivity.
  cbn [Err]. destruct (ctx_err cv s1) eqn:Ea.
  - cbn [Err]. rewrite Ea. reflexivity.
  - destruct (b (Some cv) w r s1) as [[cvb|] s2|]; try reflexivity.
    cbn [Err]. destruct (ctx_err cvb s2); [reflexivity|].
    destruct next as [n|]; [|reflexivity].
    cbn [call]. destruct (n (Some cvb) w r s2); reflexivity.
Qed.

(** X10.  A composed chain can stand for its steps: for a non-empty [xs],
    the chain of [xs ++ ys] behaves on every input as the chain of [xs]
    linked to the chain of [ys]. *)
Theorem chain_app_link xs ys c w r s :
  xs <> [] ->
  call (chain (xs ++ ys)) c w r s
  = call (link (chain xs) (chain ys)) c w r s.
Proof.
  intros Hne. rewrite call_link, call_chain_composed.
  rewrite composed_app by exact Hne.
  unfold bind.
  rewrite call_chain_composed.
  destruct (composed xs c w r s) as [c1 s1|]; [|reflexivity].
  destruct (Err c1 s1) as [[e|] s2|]; try reflexivity.
  destruct (chain_is_Some ys) as [g Hg].
  rewrite <- call_chain_composed. rewrite Hg. reflexivity.
Qed.

End Laws.

(** ** Runs on the concrete host *)

Lemma nil_step_panics_witness :
  call (chain (host := Demo.live_host) [Some (Demo.tag 1); None; Some (Demo.tag 3)])
       None tt tt []
  = Panic nil_dereference [] /\
  call (chain (host := observed_host (h := Demo.live_host))
          (watch_from 0 [Some (Demo.tag 1); None; Some (Demo.tag 3)]))
       None tt tt {| trace := []; world := [] |}
  = Panic nil_dereference {| trace := [] ++ map EvStep (seq 0 1); world := [] |}.
Proof.
  apply nil_step_panics with (ck := Some (Demo.Live 1)); reflexivity.
Defined.

Lemma step_panic_propagates_witness :
  call (chain (host := Demo.live_host)
          [Some (Demo.tag 1); Some Demo.crash; Some (Demo.tag 3)])
       None tt tt []
  = Panic (raised "boom") [] /\
  Run (host := Demo.live_host)
      (New [Some (Demo.tag 1); Some Demo.crash; Some (Demo.tag 3)]) None tt tt []
  = Panic (raised "boom") [].
Proof.
  destruct (step_panic_propagates (host := Demo.live_host)
              [Some (Demo.tag 1); Some Demo.crash; Some (Demo.tag 3)] 1
              (m := Demo.crash) None tt tt [] []
              (ck := Some (Demo.Live 1)) (uk := [])
              (p := raised "boom") (u' := []) eq_refl eq_refl eq_refl)
    as (H1 & H2 & _).
  exact (conj H1 H2).
Defined.

Lemma nil_terminal_panics_late_witness :
  Then (host := Demo.live_host) (New [Some (Demo.tag 1)]) None tt tt []
  = Panic nil_dereference [] /\
  handler_ServeHTTP (host := Demo.live_host)
    (Handle (host := Demo.live_host) (New [Some (Demo.tag 1)]) None) tt tt []
  = Panic nil_dereference [] /\
  Then (host := observed_host (h := Demo.live_host))
    (New (watch_from 0 [Some (Demo.tag 1)])) None tt tt
    {| trace := []; world := [] |}
  = Panic nil_dereference
      {| trace := [] ++ map EvStep (seq 0 (length [Some (Demo.tag 1)]));
         world := [] |}.
Proof.
  apply nil_terminal_panics_late
    with (c0 := Some (Demo.Live 0)) (u0 := []) (cv := Demo.Live 1);
    reflexivity.
Defined.

Lemma unfailed_result_means_all_passed_witness :
  pass_all (host := Demo.live_host) [Some (Demo.tag 1); Some (Demo.tag 2)]
    None tt tt []
  = Some (Some (Demo.Live 2), []).
Proof.
  apply unfailed_result_means_all_passed; reflexivity.
Defined.

Lemma nonempty_chain_result_not_nil_witness :
  Some (Demo.Live 1) <> None.
Proof.
  apply (nonempty_chain_result_not_nil (host := Demo.live_host)
           (fns := [Some (Demo.tag 1)]) None tt tt [] (s' := [])).
  - discriminate.
  - reflexivity.
Defined.

Lemma passing_prefix_hands_over_witness :
  call (chain (host := Demo.live_host) ([Some (Demo.tag 1)] ++ [Some (Demo.abort 2)]))
       None tt tt []
  = call (chain (host := Demo.live_host) [Some (Demo.abort 2)])
         (Some (Demo.Live 1)) tt tt [].
Proof.
  apply passing_prefix_hands_over. reflexivity.
Defined.

Lemma chain_app_link_witness :
  call (chain (host := Demo.live_host) ([Some (Demo.tag 1)] ++ [Some (Demo.tag 2)]))
       None tt tt []
  = call (link (host := Demo.live_host)
               (chain (host := Demo.live_host) [Some (Demo.tag 1)])
               (chain (host := Demo.live_host) [Some (Demo.tag 2)]))
         None tt tt [].
Proof.
  apply chain_app_link. discriminate.
Defined.

(** ** Where a failed result comes from *)

Section FailedResult.

Variables State CtxV Error Sink Request : Type.
Context {host : Host State CtxV Error Request}.

Local Notation Middleware := (Middleware State CtxV Sink Request).

Implicit Types (fns : list Middleware).
Implicit Types (c : Context CtxV) (w : Sink) (r : Request) (s : State).

Lemma composed_failed_from_step fns c w r s cv e s' :
  fns <> [] ->
  composed fns c w r s = Ret (Some cv) s' ->
  ctx_err cv s' = Some e ->
  exists k m ck sk,
    pass_all (firstn k fns) c w r s = Some (ck, sk) /\
    nth_error fns k = Some (Some m) /\
    m ck w r sk = Ret (Some cv) s'.
Proof.
  revert c s. induction fns as [|[m|] fns IH]; intros c s Hne H He;
    [congruence| |discriminate].
  cbn [composed call] in H. unfold bind in H.
  destruct (m c w r s) as [[cv1|] s1|] eqn:Hm; try discriminate.
  cbn [Err] in H. destruct (ctx_err cv1 s1) eqn:E1.
  - cbn in H. injection H as -> ->.
    exists 0, m, c, s. repeat split. exact Hm.
  - destruct fns as [|g fns].
    + cbn in H. injection H as -> ->. congruence.
    + destruct (IH (Some cv1) s1) as (k & m' & ck & sk & Hp & Hk & Hm');
        [discriminate | exact H | exact He |].
      exists (S k), m', ck, sk. split; [|split; assumption].
      change (firstn (S k) (Some m :: g :: fns))
        with (Some m :: firstn k (g :: fns)).
      cbn [pass_all]. rewrite Hm, E1. exact Hp.
Qed.

(** X12.  A failed result always comes from a step: if the composed
    function of a non-empty sequence returns a Context that carries a
    failure, then some step returned exactly that Context, in the world the
    chain ended in, after all the steps before it had passed. *)
Theorem failed_result_comes_from_a_step fns c w r s
  (cv : CtxV) (e : Error) (s' : State) :
  fns <> [] ->
  call (chain fns) c w r s = Ret (Some cv) s' ->
  ctx_err cv s' = Some e ->
  exists k m ck sk,
    pass_all (firstn k fns) c w r s = Some (ck, sk) /\
    nth_error fns k = Some (Some m) /\
    m ck w r sk = Ret (Some cv) s'.
Proof.
  intros Hne H He. rewrite call_chain_composed in H.
  eapply composed_failed_from_step; eassumption.
Qed.

End FailedResult.

Lemma failed_result_comes_from_a_step_witness :
  exists k m ck sk,
    pass_all (host := Demo.live_host)
      (firstn k [Some (Demo.tag 1); Some (Demo.abort 2); Some (Demo.tag 3)])
      None tt tt []
    = Some (ck, sk) /\
    nth_error [Some (Demo.tag 1); Some (Demo.abort 2); Some (Demo.tag 3)] k
    = Some (Some m) /\
    m ck tt tt sk = Ret (Some (Demo.Cancelled 2)) [].
Proof.
  apply (failed_result_comes_from_a_step (host := Demo.live_host)
           (fns := [Some (Demo.tag 1); Some (Demo.abort 2); Some (Demo.tag 3)])
           None tt tt [] (e := "context canceled"%string)).
  - discriminate.
  - reflexivity.
  - reflexivity.
Defined.

(** * Chains in memory *)

(** ** Arrays *)

Section Arrays.

Variable A : Type.

Implicit Types (l a vals : list A) (i : nat) (x d : A).

Lemma length_update l i x : length (Mem.update l i x) = length l.
Proof.
  revert i. induction l as [|y l IH]; intros [|i]; cbn; try reflexivity.
  rewrite IH. reflexivity.
Qed.

Lemma nth_error_update l i x :
  i < length l -> nth_error (Mem.update l i x) i = Some x.
Proof.
  revert i. induction l as [|y l IH]; intros [|i] H; cbn in *; try lia.
  - reflexivity.
  - apply IH. lia.
Qed.

Lemma nth_update l i x d :
  i < length l -> nth i (Mem.update l i x) d = x.
Proof.
  revert i. induction l as [|y l IH]; intros [|i] H; cbn in *; try lia.
  - reflexivity.
  - apply IH. lia.
Qed.

Lemma nth_update_other l i j x d :
  i <> j -> nth j (Mem.update l i x) d = nth j l d.
Proof.
  revert i j. induction l as [|y l IH]; intros [|i] [|j] H; cbn;
    try reflexivity; try congruence.
  apply IH. congruence.
Qed.

Lemma nth_error_update_other l i j x :
  i <> j -> nth_error (Mem.update l i x) j = nth_error l j.
Proof.
  revert i j. induction l as [|y l IH]; intros [|i] [|j] H; cbn;
    try reflexivity; try congruence.
  apply IH. congruence.
Qed.

Lemma update_nth l i d : Mem.update l i (nth i l d) = l.
Proof.
  revert i. induction l as [|y l IH]; intros [|i]; cbn; try reflexivity.
  rewrite IH. reflexivity.
Qed.

Lemma update_nth_error l i x :
  nth_error l i = Some x -> Mem.update l i x = l.
Proof.
  revert i. induction l as [|y l IH]; intros [|i] H; cbn in *; try discriminate.
  - injection H as ->. reflexivity.
  - rewrite IH by exact H. reflexivity.
Qed.

Lemma overwrite_nil a i : Mem.overwrite a i [] = a.
Proof.
  unfold Mem.overwrite. cbn. rewrite Nat.add_0_r. apply firstn_skipn.
Qed.

Lemma length_overwrite a i vals :
  i + length vals <= length a ->
  length (Mem.overwrite a i vals) = length a.
Proof.
  intros H. unfold Mem.overwrite.
  rewrite !length_app, length_firstn, length_skipn. lia.
Qed.

(** The window of length [n] at [o], after [vals] were copied in at its
    end. *)
Lemma window_overwrite a (o n : nat) vals :
  o + n + length vals <= length a ->
  firstn (n + length vals) (skipn o (Mem.overwrite a (o + n) vals))
  = firstn n (skipn o a) ++ vals.
Proof.
  intros H. unfold Mem.overwrite.
  rewrite skipn_app, length_firstn, Nat.min_l by lia.
  replace (o - (o + n)) with 0 by lia. cbn [skipn].
  rewrite skipn_firstn_comm.
  replace (o + n - o) with n by lia.
  rewrite firstn_app, length_firstn, length_skipn, Nat.min_l by lia.
  rewrite firstn_firstn, Nat.min_r by lia.
  replace (n + length vals - n) with (length vals) by lia.
  rewrite firstn_app, Nat.sub_diag, firstn_all. cbn [firstn].
  rewrite app_nil_r. reflexivity.
Qed.

End Arrays.

(** ** Append, New and Add *)

Section MemoryFacts.

Variables State CtxV Error Sink Request : Type.
Context {host : Host State CtxV Error Request}.

Local Notation Middleware := (Middleware State CtxV Sink Request).
Local Notation memory := (Mem.memory State CtxV Sink Request).

Variable grow : nat -> nat -> nat.

Implicit Types (m : memory) (s t : Mem.slice) (q : Mem.pointer).
Implicit Types (vals fs : list Middleware).

Lemma length_elements m s :
  Mem.wf_slice m s -> length (Mem.elements m s) = Mem.len s.
Proof.
  intros [H1 H2]. unfold Mem.elements.
  rewrite length_firstn, length_skipn. lia.
Qed.

(** [append] gives a slice that holds the old elements followed by the new
    ones, and leaves the chain objects alone. *)
Lemma append_spec m s vals :
  Mem.wf_slice m s ->
  exists s' m',
    Mem.append grow s vals m = Ret s' m' /\
    Mem.elements m' s' = Mem.elements m s ++ vals /\
    Mem.wf_slice m' s' /\
    Mem.chains m' = Mem.chains m.
Proof.
  intros Hwf. pose proof Hwf as [H1 H2]. unfold Mem.append.
  destruct (Mem.len s + length vals <=? Mem.cap s) eqn:Hfit.
  - apply Nat.leb_le in Hfit. eexists. eexists. split; [reflexivity|].
    destruct (Nat.lt_ge_cases (Mem.arr s) (length (Mem.arrays m))) as [Hin|Hout].
    + split; [|split; [|reflexivity]].
      * unfold Mem.elements. cbn [Mem.arr Mem.off Mem.len Mem.arrays].
        rewrite nth_update by exact Hin.
        apply window_overwrite. lia.
      * unfold Mem.wf_slice. cbn [Mem.arr Mem.off Mem.len Mem.cap Mem.arrays].
        rewrite nth_update by exact Hin.
        rewrite length_overwrite by lia. lia.
    + rewrite nth_overflow in H2 by exact Hout. cbn in H2.
      assert (Hv : vals = []) by (destruct vals; [reflexivity | cbn in Hfit; lia]).
      subst vals. rewrite overwrite_nil, update_nth.
      split; [|split; [|reflexivity]].
      * unfold Mem.elements. cbn [Mem.arr Mem.off Mem.len Mem.arrays].
        rewrite nth_overflow by exact Hout.
        rewrite skipn_nil, !firstn_nil. reflexivity.
      * unfold Mem.wf_slice. cbn [Mem.arr Mem.off Mem.len Mem.cap Mem.arrays].
        rewrite nth_overflow by exact Hout. cbn in *. lia.
  - eexists. eexists. split; [reflexivity|].
    pose proof (length_elements Hwf) as Hlen.
    split; [|split; [|reflexivity]].
    + unfold Mem.elements at 1. cbn [Mem.arr Mem.off Mem.len Mem.arrays].
      rewrite nth_middle. cbn [skipn].
      rewrite firstn_app, Hlen.
      replace (Mem.len s + length vals - Mem.len s) with (length vals) by lia.
      rewrite firstn_all2 by lia.
      rewrite firstn_app, Nat.sub_diag, firstn_all. cbn [firstn].
      rewrite app_nil_r. reflexivity.
    + unfold Mem.wf_slice. cbn [Mem.arr Mem.off Mem.len Mem.cap Mem.arrays].
      rewrite nth_middle.
      rewrite !length_app, repeat_length, Hlen. lia.
Qed.

(** Appending nothing changes nothing. *)
Lemma append_nothing m s :
  Mem.len s <= Mem.cap s ->
  Mem.append grow s [] m = Ret s m.
Proof.
  intros H. unfold Mem.append. cbn [length]. rewrite Nat.add_0_r.
  apply Nat.leb_le in H. rewrite H.
  rewrite overwrite_nil, update_nth.
  destruct s, m. reflexivity.
Qed.

Lemma load_fns_inv q m s m' :
  Mem.load_fns q m = Ret s m' ->
  exists a, q = Some a /\ nth_error (Mem.chains m) a = Some s /\ m' = m.
Proof.
  unfold Mem.load_fns. destruct q as [a|]; [|discriminate].
  destruct (nth_error (Mem.chains m) a) eqn:E; [|discriminate].
  intros H. injection H as -> ->. exists a. auto.
Qed.

(** [Add] on a chain whose slice lies within its array: the chain then
    holds the steps it held, in their order, followed by the new ones. *)
Lemma Add_spec q m s t :
  Mem.load_fns q m = Ret s m ->
  Mem.wf_slice m s ->
  exists s' m',
    Mem.Add grow q t m = Ret tt m' /\
    Mem.load_fns q m' = Ret s' m' /\
    Mem.wf_slice m' s' /\
    Mem.contents q m' = Ret (Mem.elements m s ++ Mem.elements m t) m'.
Proof.
  intros Hload Hwf.
  destruct (load_fns_inv _ _ Hload) as (a & -> & Ha & _).
  destruct (append_spec (Mem.elements m t) Hwf) as (s' & m1 & Happ & Hel & Hwf' & Hch).
  assert (Hlt : a < length (Mem.chains m1))
    by (rewrite Hch; apply nth_error_Some; congruence).
  exists s', {| Mem.arrays := Mem.arrays m1;
                Mem.chains := Mem.update (Mem.chains m1) a s' |}.
  assert (Hl : Mem.load_fns (Some a)
                 {| Mem.arrays := Mem.arrays m1;
                    Mem.chains := Mem.update (Mem.chains m1) a s' |}
               = Ret s' {| Mem.arrays := Mem.arrays m1;
                           Mem.chains := Mem.update (Mem.chains m1) a s' |}).
  { unfold Mem.load_fns. cbn [Mem.chains].
    rewrite nth_error_update by exact Hlt. reflexivity. }
  split; [|split; [exact Hl | split; [exact Hwf'|]]].
  - unfold Mem.Add. rewrite (bind_Ret _ Hload).
    unfold Mem.read at 1. unfold bind at 1.
    rewrite (bind_Ret _ Happ).
    unfold Mem.store_fns. apply Nat.ltb_lt in Hlt. rewrite Hlt. reflexivity.
  - unfold Mem.contents. rewrite (bind_Ret _ Hl).
    unfold Mem.read. rewrite <- Hel. reflexivity.
Qed.

(** [Add] of no steps leaves the memory as it was. *)
Lemma Add_nothing q m s t :
  Mem.load_fns q m = Ret s m ->
  Mem.len s <= Mem.cap s ->
  Mem.len t = 0 ->
  Mem.Add grow q t m = Ret tt m.
Proof.
  intros Hload Hwf Ht.
  destruct (load_fns_inv _ _ Hload) as (a & -> & Ha & _).
  unfold Mem.Add. rewrite (bind_Ret _ Hload).
  unfold Mem.read at 1. unfold bind at 1.
  unfold Mem.elements. rewrite Ht. cbn [firstn].
  rewrite (bind_Ret _ (append_nothing m s Hwf)).
  unfold Mem.store_fns.
  assert (Hlt : a < length (Mem.chains m))
    by (apply nth_error_Some; congruence).
  apply Nat.ltb_lt in Hlt. rewrite Hlt.
  rewrite update_nth_error by exact Ha.
  destruct m. reflexivity.
Qed.

(** [append] on one array leaves the slices on the other arrays as they
    were. *)
Lemma append_other m s vals s0 :
  Mem.wf_slice m s0 ->
  Mem.arr s0 <> Mem.arr s ->
  Mem.elements (final (Mem.append grow s vals m)) s0 = Mem.elements m s0.
Proof.
  intros [H1 H2] Hne. unfold Mem.append.
  destruct (Mem.len s + length vals <=? Mem.cap s); cbn [final].
  - unfold Mem.elements. cbn [Mem.arrays].
    rewrite nth_update_other by congruence. reflexivity.
  - unfold Mem.elements. cbn [Mem.arrays].
    destruct (Nat.lt_ge_cases (Mem.arr s0) (length (Mem.arrays m))) as [Hin|Hout].
    + rewrite app_nth1 by exact Hin. reflexivity.
    + rewrite nth_overflow in H2 by exact Hout. cbn in H2.
      assert (Hz : Mem.len s0 = 0) by lia.
      rewrite Hz. reflexivity.
Qed.

(** How [Add] changes the memory: what [append] wrote, and the new slice in
    the chain object. *)
Lemma Add_unfold q m s t :
  Mem.load_fns q m = Ret s m ->
  exists a s' m1,
    q = Some a /\
    nth_error (Mem.chains m) a = Some s /\
    Mem.append grow s (Mem.elements m t) m = Ret s' m1 /\
    Mem.chains m1 = Mem.chains m /\
    Mem.Add grow q t m
    = Ret tt {| Mem.arrays := Mem.arrays m1;
                Mem.chains := Mem.update (Mem.chains m) a s' |}.
Proof.
  intros Hload.
  destruct (load_fns_inv _ _ Hload) as (a & -> & Ha & _).
  assert (Hlt : a < length (Mem.chains m))
    by (apply nth_error_Some; congruence).
  apply Nat.ltb_lt in Hlt.
  assert (Happ : exists s' m1,
            Mem.append grow s (Mem.elements m t) m = Ret s' m1 /\
            Mem.chains m1 = Mem.chains m).
  { unfold Mem.append.
    destruct (Mem.len s + length (Mem.elements m t) <=? Mem.cap s);
      eexists; eexists; split; reflexivity. }
  destruct Happ as (s' & m1 & Happ & Hch).
  exists a, s', m1. split; [reflexivity|]. split; [exact Ha|].
  split; [exact Happ|]. split; [exact Hch|].
  unfold Mem.Add. rewrite (bind_Ret _ Hload).
  unfold Mem.read at 1. unfold bind at 1.
  rewrite (bind_Ret _ Happ).
  unfold Mem.store_fns. rewrite Hch, Hlt. reflexivity.
Qed.

(** [Add] on a chain leaves alone the chains whose slices are on other
    arrays. *)
Lemma Add_other q m s t q0 s0 :
  Mem.load_fns q m = Ret s m ->
  Mem.load_fns q0 m = Ret s0 m ->
  Mem.wf_slice m s0 ->
  Mem.arr s0 <> Mem.arr s ->
  exists m',
    Mem.Add grow q t m = Ret tt m' /\
    Mem.contents q0 m' = Ret (Mem.elements m s0) m'.
Proof.
  intros Hload Hload0 Hwf0 Hne.
  destruct (Add_unfold q t Hload) as (a & s' & m1 & -> & Ha & Happ & Hch & Hadd).
  destruct (load_fns_inv _ _ Hload0) as (a0 & -> & Ha0 & _).
  eexists. split; [exact Hadd|].
  assert (Haa : a <> a0) by (intros ->; congruence).
  unfold Mem.contents, Mem.load_fns, bind, Mem.read. cbn [Mem.chains].
  rewrite nth_error_update_other by exact Haa. rewrite Ha0.
  f_equal.
  pose proof (append_other s (Mem.elements m t) Hwf0 Hne) as E.
  rewrite Happ in E. cbn [final] in E.
  unfold Mem.elements in E |- *. cbn [Mem.arrays]. exact E.
Qed.

(** [New] makes a chain that holds the slice it was given. *)
Lemma New_spec m s :
  exists q m',
    Mem.New s m = Ret q m' /\
    Mem.load_fns q m' = Ret s m' /\
    Mem.arrays m' = Mem.arrays m.
Proof.
  eexists. eexists. split; [reflexivity|]. split; [|reflexivity].
  unfold Mem.load_fns. cbn [Mem.chains].
  rewrite nth_error_app2, Nat.sub_diag by lia. reflexivity.
Qed.

Lemma elements_same_arrays m m' s :
  Mem.arrays m' = Mem.arrays m -> Mem.elements m' s = Mem.elements m s.
Proof. intros H. unfold Mem.elements. rewrite H. reflexivity. Qed.

Lemma wf_same_arrays m m' s :
  Mem.arrays m' = Mem.arrays m -> Mem.wf_slice m s -> Mem.wf_slice m' s.
Proof. intros H. unfold Mem.wf_slice. rewrite H. auto. Qed.

Lemma contents_of_load q m s :
  Mem.load_fns q m = Ret s m ->
  Mem.contents q m = Ret (Mem.elements m s) m.
Proof.
  intros H. unfold Mem.contents. rewrite (bind_Ret _ H). reflexivity.
Qed.

(** The handler [Then] returns was composed from the steps the chain held
    when [Then] ran; the memory it is called against plays no part. *)
Lemma Then_of_contents q m fs (fn : HandlerFunc State CtxV Sink Request) :
  Mem.contents q m = Ret fs m ->
  Mem.Then q fn m = Ret (fun _ => Then (New fs) fn) m.
Proof.
  intros H. unfold Mem.Then. rewrite (bind_Ret _ H). reflexivity.
Qed.


Lemma Run_of_contents q m fs c w r x :
  Mem.contents q m = Ret fs m ->
  Mem.Run q c w r m x = Run (New fs) c w r x.
Proof.
  intros H. unfold Mem.Run. rewrite H. reflexivity.
Qed.

End MemoryFacts.

(** ** Construction and Add *)

Section Appending.

Variables State CtxV Error Sink Request : Type.
Context {host : Host State CtxV Error Request}.

Local Notation Middleware := (Middleware State CtxV Sink Request).
Local Notation memory := (Mem.memory State CtxV Sink Request).

Variable grow : nat -> nat -> nat.

(** C6, as amended.  Make a chain with [New] from the slice [s] and, with no
    write to memory in between, [Add] the steps of the slice [t]; and make a
    chain with [New] from a slice [u] that holds the steps of [s] followed by
    those of [t].  Both chains hold the same steps in the same order, so they
    compose to the same function: the handlers [Then] gives for them have
    the same outcome on every input, and so has [Run].  For any chain in
    memory, [Add] of no steps leaves the memory as it was; after an [Add]
    the chain holds the steps it held, in their order, followed by the new
    ones; and an [Add] on a chain whose slice is on another backing array
    leaves the steps of this one as they were.  (The slices lie within
    their arrays, as every Go slice does.) *)
Theorem add_is_construction
  (m : memory) (s t u : Mem.slice) (fn : HandlerFunc State CtxV Sink Request) :
  Mem.wf_slice m s ->
  Mem.elements m u = Mem.elements m s ++ Mem.elements m t ->
  (exists q m1 q' m2 h h',
     (q <- Mem.New s ;; _ <- Mem.Add grow q t ;; ret q) m = Ret q m1 /\
     Mem.New u m = Ret q' m2 /\
     Mem.contents q m1 = Ret (Mem.elements m s ++ Mem.elements m t) m1 /\
     Mem.contents q' m2 = Ret (Mem.elements m s ++ Mem.elements m t) m2 /\
     Mem.Then q fn m1 = Ret h m1 /\
     Mem.Then q' fn m2 = Ret h' m2 /\
     (forall n n' w r x, h n w r x = h' n' w r x) /\
     (forall c w r x, Mem.Run q c w r m1 x = Mem.Run q' c w r m2 x)) /\
  (forall q0 s0,
     Mem.load_fns q0 m = Ret s0 m ->
     Mem.wf_slice m s0 ->
     (Mem.len t = 0 -> Mem.Add grow q0 t m = Ret tt m) /\
     (exists m',
        Mem.Add grow q0 t m = Ret tt m' /\
        Mem.contents q0 m'
        = Ret (Mem.elements m s0 ++ Mem.elements m t) m') /\
     (forall q2 s2,
        Mem.load_fns q2 m = Ret s2 m ->
        Mem.arr s0 <> Mem.arr s2 ->
        exists m',
          Mem.Add grow q2 t m = Ret tt m' /\
          Mem.contents q0 m' = Ret (Mem.elements m s0) m')).
Proof.
  intros Hwf Hu. split.
  - destruct (New_spec m s) as (q & m0 & Hnew & Hload & Harr).
    destruct (Add_spec grow q t Hload (wf_same_arrays m0 Harr Hwf))
      as (s' & m1 & Hadd & _ & _ & Hc).
    rewrite !(elements_same_arrays m m0 _ Harr) in Hc.
    destruct (New_spec m u) as (q' & m2 & Hnew' & Hload' & Harr').
    pose proof (contents_of_load q' Hload') as Hc'.
    rewrite (elements_same_arrays m m2 _ Harr'), Hu in Hc'.
    exists q, m1, q', m2.
    exists (fun _ => Then (New (Mem.elements m s ++ Mem.elements m t)) fn).
    exists (fun _ => Then (New (Mem.elements m s ++ Mem.elements m t)) fn).
    split; [|split; [exact Hnew'|split; [exact Hc|split; [exact Hc'|]]]].
    + rewrite (bind_Ret _ Hnew), (bind_Ret _ Hadd). reflexivity.
    + split; [apply Then_of_contents, Hc|].
      split; [apply Then_of_contents, Hc'|].
      split; [reflexivity|].
      intros c w r x.
      rewrite (Run_of_contents q c w r x Hc), (Run_of_contents q' c w r x Hc').
      reflexivity.
  - intros q0 s0 Hload0 Hwf0. split.
    + intros Ht. apply (Add_nothing grow q0 t Hload0); [apply Hwf0 | exact Ht].
    + split.
      * destruct (Add_spec grow q0 t Hload0 Hwf0) as (s' & m' & Hadd & _ & _ & Hc).
        exists m'. split; assumption.
      * intros q2 s2 Hload2 Hne.
        eapply Add_other; eassumption.
Qed.

End Appending.

Lemma add_is_construction_witness :
  exists q m1,
    (q <- Mem.New Demo.spare_slice ;;
     _ <- Mem.Add Demo.doubling q Demo.second_slice ;;
     ret q) Demo.shelf
    = Ret q m1 /\
    Mem.contents q m1 = Ret [Some (Demo.tag 1); Some (Demo.tag 2)] m1.
Proof.
  destruct (add_is_construction (host := Demo.live_host) Demo.doubling
              (m := Demo.shelf) (s := Demo.spare_slice)
              Demo.second_slice Demo.both_slice (Some Demo.record))
    as [(q & m1 & _ & _ & _ & _ & H1 & _ & H2 & _) _].
  - split; cbn; lia.
  - reflexivity.
  - exists q, m1. split; [exact H1 | exact H2].
Defined.

(** C6 as stated fails.  Two chains are made from one slice that has room
    for one more step; a step is added to the first, then another to the
    second, both before any invocation.  The second [Add] writes where the
    first did: the first chain now runs [tag 3], where a chain made from
    [tag 1] and [tag 2] at once runs [tag 2]. *)
Lemma add_on_shared_slice :
  exists h m h' m',
    (q1 <- Mem.New Demo.spare_slice ;;
     q2 <- Mem.New Demo.spare_slice ;;
     t2 <- Mem.args [Some (Demo.tag 2)] ;;
     _ <- Mem.Add Demo.doubling q1 t2 ;;
     t3 <- Mem.args [Some (Demo.tag 3)] ;;
     _ <- Mem.Add Demo.doubling q2 t3 ;;
     Mem.Then (host := Demo.live_host) q1 (Some Demo.record)) Demo.spare
    = Ret h m /\
    (u <- Mem.args [Some (Demo.tag 1); Some (Demo.tag 2)] ;;
     q <- Mem.New u ;;
     Mem.Then (host := Demo.live_host) q (Some Demo.record)) Demo.spare
    = Ret h' m' /\
    h m tt tt [] = Ret tt [3] /\
    h' m' tt tt [] = Ret tt [2].
Proof.
  eexists. eexists. eexists. eexists.
  split; [reflexivity|]. split; [reflexivity|]. split; reflexivity.
Qed.

(** ** Handlers and later Adds *)

Section SnapshotInMemory.

Variables U CtxV Error Sink Request : Type.
Context {host : Host U CtxV Error Request}.

Local Notation memory := (Mem.memory (observed U) CtxV Sink Request).

Variable grow : nat -> nat -> nat.


End SnapshotInMemory.

